(** * Contact Management System: a shallow embedding of [main.cpp]

    The program keeps a [std::vector<Contact>] in memory, loads it from
    [contacts.txt] at start-up and rewrites the whole file after every
    successful add, edit or delete.  The embedding below follows the
    source function by function: the standard-library pieces the
    program relies on ([std::getline], [std::stoi], [operator<<] on
    [int], [std::string::find], [std::remove_if]) are modelled first,
    then the program's own functions, then the theorems. *)

From Stdlib Require Import ZArith List String Ascii Bool Arith Lia.
Import ListNotations.

Local Open Scope string_scope.
Local Open Scope Z_scope.

(** ** The C++ [int] *)

Definition INT_MIN : Z := - 2 ^ 31.
Definition INT_MAX : Z := 2 ^ 31 - 1.

Definition in_int (z : Z) : Prop := INT_MIN <= z <= INT_MAX.

Definition in_intb (z : Z) : bool := (INT_MIN <=? z) && (z <=? INT_MAX).

(** Two's-complement wrap-around of a value computed in [int].  (ISO C++
    leaves signed overflow undefined; this is what the usual targets
    do.  No theorem below relies on the wrapped branch.) *)
Definition wrap_int (z : Z) : Z := (z + 2 ^ 31) mod 2 ^ 32 - 2 ^ 31.

(** ** Characters *)

Definition NL : ascii := "010"%char.
Definition TAB : ascii := "009"%char.
Definition CR : ascii := "013"%char.
Definition BAR : ascii := "|"%char.

Definition is_digit (c : ascii) : bool :=
  let n := nat_of_ascii c in (48 <=? n)%nat && (n <=? 57)%nat.

Definition digit_val (c : ascii) : Z := Z.of_nat (nat_of_ascii c) - 48.

Definition digit_char (d : Z) : ascii := ascii_of_nat (48 + Z.to_nat d).

(** [isspace] in the "C" locale: space and the controls 9 to 13. *)
Definition isspace (c : ascii) : bool :=
  let n := nat_of_ascii c in (n =? 32)%nat || ((9 <=? n)%nat && (n <=? 13)%nat).

(** Every character of [s] satisfies [p]. *)
Fixpoint str_forall (p : ascii -> bool) (s : string) : bool :=
  match s with
  | EmptyString => true
  | String c r => p c && str_forall p r
  end.

(** ** [std::stoi] *)

Inductive exception : Type :=
  | invalid_argument
  | out_of_range.

Inductive result (A : Type) : Type :=
  | Ok (a : A)
  | Throw (e : exception).

Arguments Ok {A} a.
Arguments Throw {A} e.

Fixpoint skip_space (s : string) : string :=
  match s with
  | EmptyString => EmptyString
  | String c r => if isspace c then skip_space r else s
  end.

(** The digit loop of [strtol] in base 10: stops at the first character
    that is not a digit. *)
Fixpoint strtol_digits (acc : Z) (s : string) : Z :=
  match s with
  | EmptyString => acc
  | String c r =>
      if is_digit c then strtol_digits (acc * 10 + digit_val c) r else acc
  end.

Definition starts_with_digit (s : string) : bool :=
  match s with
  | EmptyString => false
  | String c _ => is_digit c
  end.

(** [std::stoi(s)]: leading white space is skipped, then an optional
    sign, then at least one digit; what follows the digits is ignored.
    No digit: [std::invalid_argument].  A value that does not fit
    [int]: [std::out_of_range]. *)
Definition stoi (s : string) : result Z :=
  let s1 := skip_space s in
  let '(neg, s2) :=
    match s1 with
    | String c r =>
        if Ascii.eqb c "-" then (true, r)
        else if Ascii.eqb c "+" then (false, r)
        else (false, s1)
    | EmptyString => (false, s1)
    end in
  if starts_with_digit s2 then
    let v := strtol_digits 0 s2 in
    let v := if neg : bool then - v else v in
    if in_intb v then Ok v else Throw out_of_range
  else Throw invalid_argument.

(** ** [operator<<] on an [int] *)

Fixpoint digits_of (fuel : nat) (n : Z) (acc : string) : string :=
  let acc' := String (digit_char (n mod 10)) acc in
  match fuel with
  | O => acc'
  | S f => if n / 10 =? 0 then acc' else digits_of f (n / 10) acc'
  end.

(** Decimal digits, with a leading minus sign for a negative value.  An
    [int] has at most ten digits. *)
Definition put_int (z : Z) : string :=
  if z <? 0 then String "-"%char (digits_of 9 (- z) EmptyString)
  else digits_of 9 z EmptyString.

(** ** Input streams and [std::getline] *)

Record istream : Type := mk_istream {
  buf : string;       (* the characters not yet read *)
  eofbit : bool;
  failbit : bool
}.

Definition open (text : string) : istream :=
  {| buf := text; eofbit := false; failbit := false |}.

Definition good (i : istream) : bool := negb (eofbit i || failbit i).

(** The conversion of a stream to [bool]: [!fail()]. *)
Definition to_bool (i : istream) : bool := negb (failbit i).

(** Characters up to the delimiter.  [Some r]: the delimiter was found
    and discarded, [r] follows it.  [None]: the input ended first. *)
Fixpoint extract_until (delim : ascii) (s : string) : string * option string :=
  match s with
  | EmptyString => (EmptyString, None)
  | String c r =>
      if Ascii.eqb c delim then (EmptyString, Some r)
      else let '(w, k) := extract_until delim r in (String c w, k)
  end.

(** [std::getline(is, str, delim)].  When the stream is not [good] the
    sentry fails: [failbit] is set and [str] is left as it was.
    Otherwise [str] is erased and filled; reaching the end of the input
    sets [eofbit], and extracting nothing at all sets [failbit]. *)
Definition getline (i : istream) (str : string) (delim : ascii)
  : istream * string :=
  if good i then
    match extract_until delim (buf i) with
    | (w, Some r) => ({| buf := r; eofbit := false; failbit := false |}, w)
    | (w, None) =>
        ({| buf := EmptyString; eofbit := true;
            failbit := match w with EmptyString => true | _ => false end |}, w)
    end
  else ({| buf := buf i; eofbit := eofbit i; failbit := true |}, str).

(** ** [std::string] searching *)

Fixpoint in_set (c : ascii) (set : string) : bool :=
  match set with
  | EmptyString => false
  | String d r => Ascii.eqb c d || in_set c r
  end.

(** [npos] is [None]. *)
Fixpoint find_first_not_of (set s : string) : option nat :=
  match s with
  | EmptyString => None
  | String c r =>
      if in_set c set then option_map S (find_first_not_of set r) else Some O
  end.

Fixpoint find_last_not_of (set s : string) : option nat :=
  match s with
  | EmptyString => None
  | String c r =>
      match find_last_not_of set r with
      | Some k => Some (S k)
      | None => if in_set c set then None else Some O
      end
  end.

Definition substr (s : string) (pos len : nat) : string := substring pos len s.

Fixpoint starts_with (q s : string) : bool :=
  match q, s with
  | EmptyString, _ => true
  | String _ _, EmptyString => false
  | String a q', String b s' => Ascii.eqb a b && starts_with q' s'
  end.

(** [s.find(q)]: the first position at which [q] occurs in [s]. *)
Fixpoint find (s q : string) : option nat :=
  if starts_with q s then Some O
  else match s with
       | EmptyString => None
       | String _ r => option_map S (find r q)
       end.

(** ** The program *)

Record Contact : Type := mk_Contact {
  id : Z;
  name : string;
  phone : string;
  email : string
}.

(** The global vector together with the file [contacts.txt] ([None]:
    the file does not exist). *)
Record Store : Type := mk_Store {
  contacts : list Contact;
  data_file : option string
}.

Definition WS : string :=
  String " "%char (String TAB (String NL (String CR EmptyString))).

Definition trim (s : string) : string :=
  match find_first_not_of WS s with
  | None => EmptyString
  | Some start =>
      match find_last_not_of WS s with
      | Some e => substr s start (e - start + 1)
      | None =>
          (* [npos - start + 1] in [size_t]: 0 when [start] is 0 *)
          match start with
          | O => EmptyString
          | S _ => substr s start (String.length s - start)
          end
      end
  end.

(** The body of the [while] loop of [loadContacts], on one line of the
    file.  The fields of the fresh [Contact c] start out empty; the
    variable [line] is overwritten with the id field. *)
Definition parse_line (line : string) : result (Contact * string) :=
  let ss := open line in
  let '(ss, line) := getline ss line BAR in
  match stoi line with
  | Throw e => Throw e
  | Ok i =>
      let '(ss, c_name) := getline ss EmptyString BAR in
      let '(ss, c_phone) := getline ss EmptyString BAR in
      let '(ss, c_email) := getline ss EmptyString BAR in
      Ok ({| id := i; name := c_name; phone := c_phone; email := c_email |},
          line)
  end.

(** The [while (std::getline(infile, line))] loop.  [None] only when the
    fuel runs out; [Throw] is the uncaught exception of [std::stoi],
    which ends the program. *)
Fixpoint load_loop (fuel : nat) (infile : istream) (line : string)
    (acc : list Contact) : option (result (list Contact)) :=
  match fuel with
  | O => None
  | S f =>
      let '(infile, line) := getline infile line NL in
      if to_bool infile then
        match parse_line line with
        | Throw e => Some (Throw e)
        | Ok (c, line) => load_loop f infile line (acc ++ [c])%list
        end
      else Some (Ok acc)
  end.

(** [loadContacts]: the argument is the content of [contacts.txt], or
    [None] when the file cannot be opened. *)
Definition loadContacts (file : option string)
  : option (result (list Contact)) :=
  match file with
  | None => Some (Ok [])
  | Some text =>
      load_loop (S (String.length text)) (open text) EmptyString []
  end.

Definition put_contact (c : Contact) : string :=
  put_int (id c) ++ "|" ++ name c ++ "|" ++ phone c ++ "|" ++ email c
  ++ String NL EmptyString.

(** [saveContacts]: the text written to [contacts.txt]. *)
Fixpoint saveContacts (cs : list Contact) : string :=
  match cs with
  | [] => EmptyString
  | c :: rest => put_contact c ++ saveContacts rest
  end.

Definition max_step (maxId : Z) (c : Contact) : Z :=
  if id c >? maxId then id c else maxId.

Definition nextId (cs : list Contact) : Z :=
  wrap_int (fold_left max_step cs 0 + 1).

(** [addContact], with the three lines read from the console.  Returns
    the new store and the id printed in the confirmation. *)
Definition addContact (c_name c_phone c_email : string) (st : Store)
  : Store * Z :=
  let c := {| id := nextId (contacts st); name := c_name;
              phone := c_phone; email := c_email |} in
  let cs := (contacts st ++ [c])%list in
  ({| contacts := cs; data_file := Some (saveContacts cs) |}, id c).

(** [listContacts] prints the vector in order. *)
Definition listContacts (st : Store) : list Contact := contacts st.

Definition blank (input : string) : bool :=
  match trim input with
  | EmptyString => true
  | String _ _ => false
  end.

Definition edit_fields (c : Contact) (in_name in_phone in_email : string)
  : Contact :=
  {| id := id c;
     name := if blank in_name then name c else in_name;
     phone := if blank in_phone then phone c else in_phone;
     email := if blank in_email then email c else in_email |}.

(** The [for] loop of [editContact]: the first element with the id is
    updated in place; [None] when the loop falls through. *)
Fixpoint edit_loop (i : Z) (in_name in_phone in_email : string)
    (cs : list Contact) : option (list Contact) :=
  match cs with
  | [] => None
  | c :: rest =>
      if id c =? i then Some (edit_fields c in_name in_phone in_email :: rest)
      else option_map (cons c) (edit_loop i in_name in_phone in_email rest)
  end.

Inductive status : Type :=
  | Done        (* "[OK] Contact updated." / "[OK] Contact deleted." *)
  | NotFound.   (* "Contact not found." *)

Definition editContact (i : Z) (in_name in_phone in_email : string)
    (st : Store) : Store * status :=
  match edit_loop i in_name in_phone in_email (contacts st) with
  | Some cs => ({| contacts := cs; data_file := Some (saveContacts cs) |}, Done)
  | None => (st, NotFound)
  end.

(** [std::remove_if]: the elements that do not satisfy [p] are moved to
    the front in their order; the result is the vector and the index of
    the new logical end.  What lies behind that index is unspecified
    (here: what was there before). *)
Definition remove_if (p : Contact -> bool) (v : list Contact)
  : list Contact * nat :=
  let kept := filter (fun c => negb (p c)) v in
  ((kept ++ skipn (List.length kept) v)%list, List.length kept).

(** [v.erase(it, v.end())]. *)
Definition erase_from (it : nat) (v : list Contact) : list Contact :=
  firstn it v.

Definition deleteContact (i : Z) (st : Store) : Store * status :=
  let '(v, it) := remove_if (fun c => id c =? i) (contacts st) in
  if negb (it =? List.length v)%nat then
    let cs := erase_from it v in
    ({| contacts := cs; data_file := Some (saveContacts cs) |}, Done)
  else (st, NotFound).

Definition found (r : option nat) : bool :=
  match r with
  | Some _ => true
  | None => false
  end.

Definition matches (q : string) (c : Contact) : bool :=
  found (find (name c) q) || found (find (phone c) q)
  || found (find (email c) q).

(** The loop of [searchContacts]: the contacts printed, in order. *)
Fixpoint search_loop (q : string) (cs : list Contact) : list Contact :=
  match cs with
  | [] => []
  | c :: rest =>
      if matches q c then c :: search_loop q rest else search_loop q rest
  end.

Definition searchContacts (q : string) (st : Store) : list Contact :=
  let q := trim q in
  search_loop q (contacts st).

(** The choices of [menu] that reach the store, with their inputs. *)
Inductive command : Type :=
  | Add (c_name c_phone c_email : string)
  | View
  | Edit (i : Z) (in_name in_phone in_email : string)
  | Delete (i : Z)
  | Search (q : string).

Definition dispatch (cmd : command) (st : Store) : Store :=
  match cmd with
  | Add n p e => fst (addContact n p e st)
  | View => st
  | Edit i n p e => fst (editContact i n p e st)
  | Delete i => fst (deleteContact i st)
  | Search _ => st
  end.

(** [menu]: the commands are dispatched in turn. *)
Definition menu (cmds : list command) (st : Store) : Store :=
  fold_left (fun s cmd => dispatch cmd s) cmds st.

(** [main] once [loadContacts] has returned [cs]. *)
Definition startup (file : option string) (cs : list Contact) : Store :=
  {| contacts := cs; data_file := file |}.

(** A run of [addContact]s, with the ids printed. *)
Fixpoint add_all (inputs : list (string * string * string)) (st : Store)
  : Store * list Z :=
  match inputs with
  | [] => (st, [])
  | (n, p, e) :: rest =>
      let '(st1, i) := addContact n p e st in
      let '(st2, ids) := add_all rest st1 in
      (st2, i :: ids)
  end.

Definition empty_store : Store := {| contacts := []; data_file := None |}.


(** ** Notions used in the statements *)

(** The lines that the loop [while (std::getline(infile, line))] sees:
    the text is cut at every newline, and nothing follows the last
    newline unless characters do. *)
Fixpoint getlines (s : string) : list string :=
  match s with
  | EmptyString => []
  | String c r =>
      if Ascii.eqb c NL then EmptyString :: getlines r
      else match getlines r with
           | [] => [String c EmptyString]
           | l :: ls => String c l :: ls
           end
  end.

(** The fields of a line: the line cut at every delimiter. *)
Fixpoint split_on (delim : ascii) (s : string) : list string :=
  match s with
  | EmptyString => [EmptyString]
  | String c r =>
      if Ascii.eqb c delim then EmptyString :: split_on delim r
      else match split_on delim r with
           | [] => [String c EmptyString]
           | w :: ws => String c w :: ws
           end
  end.

Definition field (k : nat) (line : string) : string :=
  nth k (split_on BAR line) EmptyString.

(** The Contact that a line with id [i] is read as. *)
Definition contact_of_line (i : Z) (line : string) : Contact :=
  {| id := i; name := field 1 line; phone := field 2 line;
     email := field 3 line |}.

(** The loop of [loadContacts] as a function of the lines. *)
Fixpoint decode_lines (ls : list string) (acc : list Contact)
  : result (list Contact) :=
  match ls with
  | [] => Ok acc
  | l :: rest =>
      match parse_line l with
      | Throw e => Throw e
      | Ok (c, _) => decode_lines rest (acc ++ [c])%list
      end
  end.

(** The id field of a line is accepted by [std::stoi]. *)
Definition valid_id (line : string) : Prop :=
  exists i, stoi (field 0 line) = Ok i.

(** The text from which the empty lines have been removed. *)
Fixpoint unlines (ls : list string) : string :=
  match ls with
  | [] => EmptyString
  | l :: rest => l ++ String NL (unlines rest)
  end.

Definition nonempty (s : string) : bool :=
  match s with
  | EmptyString => false
  | String _ _ => true
  end.

Definition drop_empty_lines (text : string) : string :=
  unlines (filter nonempty (getlines text)).

Definition differs (d : ascii) (c : ascii) : bool := negb (Ascii.eqb c d).

(** A field that the file format can hold: no delimiter, no newline. *)
Definition plain_char (c : ascii) : bool :=
  negb (Ascii.eqb c BAR) && negb (Ascii.eqb c NL).

Definition plain (s : string) : Prop := str_forall plain_char s = true.

Definition storable (c : Contact) : Prop :=
  in_int (id c) /\ plain (name c) /\ plain (phone c) /\ plain (email c).

(** The line that [saveContacts] writes for a Contact, without its
    newline. *)
Definition line_of (c : Contact) : string :=
  put_int (id c) ++ "|" ++ name c ++ "|" ++ phone c ++ "|" ++ email c.

(** [q] occurs in [s]. *)
Definition Substring (q s : string) : Prop :=
  exists pre post, s = pre ++ q ++ post.

Definition whitespace_only (s : string) : Prop :=
  str_forall (fun c => in_set c WS) s = true.

Definition first_char (s : string) : option ascii :=
  match s with
  | EmptyString => None
  | String c _ => Some c
  end.

Fixpoint last_char (s : string) : option ascii :=
  match s with
  | EmptyString => None
  | String c r =>
      match last_char r with
      | Some d => Some d
      | None => Some c
      end
  end.

Definition no_space_at_ends (t : string) : Prop :=
  (forall c, first_char t = Some c -> in_set c WS = false)
  /\ (forall c, last_char t = Some c -> in_set c WS = false).

(** [t] is [s] without the white space around it. *)
Definition Trimmed (s t : string) : Prop :=
  (exists l r, s = l ++ t ++ r /\ whitespace_only l /\ whitespace_only r)
  /\ no_space_at_ends t.

(** [s] up to its last character that is not white space. *)
Definition upto_last (s : string) : string :=
  match find_last_not_of WS s with
  | Some k => substring 0 (S k) s
  | None => EmptyString
  end.

Definition ids (cs : list Contact) : list Z := map id cs.

Definition unique_ids (cs : list Contact) : Prop := NoDup (ids cs).

(** The value of [maxId] when the loop of [nextId] ends. *)
Definition max_id (cs : list Contact) : Z := fold_left max_step cs 0.

(** [l1] is [l2] with some elements left out, the others in their order. *)
Inductive subseq {A : Type} : list A -> list A -> Prop :=
  | subseq_nil : subseq [] []
  | subseq_skip x l1 l2 : subseq l1 l2 -> subseq l1 (x :: l2)
  | subseq_keep x l1 l2 : subseq l1 l2 -> subseq (x :: l1) (x :: l2).

Definition adds_in (cmds : list command) : Z :=
  Z.of_nat (List.length
    (filter (fun c => match c with Add _ _ _ => true | _ => false end) cmds)).

(** A Contact whose line in the file is one line: an [int] id and no
    newline in a field (the console reads the fields with
    [std::getline], so they never hold one). *)
Definition one_line (c : Contact) : Prop :=
  in_int (id c)
  /\ str_forall (differs NL) (name c) = true
  /\ str_forall (differs NL) (phone c) = true
  /\ str_forall (differs NL) (email c) = true.

(** The text typed for a command has no delimiter in it. *)
Definition plain_inputs (cmd : command) : Prop :=
  match cmd with
  | Add n p e => plain n /\ plain p /\ plain e
  | Edit _ n p e => plain n /\ plain p /\ plain e
  | _ => True
  end.

(** What a line and the Contact read from it have in common. *)
Definition read_from (l : string) (c : Contact) : Prop :=
  stoi (field 0 l) = Ok (id c)
  /\ name c = field 1 l /\ phone c = field 2 l /\ email c = field 3 l.

(** The Contact that [loadContacts] makes of the line written for [c]. *)
Definition reread (c : Contact) : Contact :=
  contact_of_line (id c) (line_of c).

(** *** Integers as they are written *)

Inductive sign : Type :=
  | NoSign
  | Plus
  | Minus.

Definition sign_text (sg : sign) : string :=
  match sg with
  | NoSign => EmptyString
  | Plus => "+"
  | Minus => "-"
  end.

Definition sign_apply (sg : sign) (v : Z) : Z :=
  match sg with
  | Minus => - v
  | _ => v
  end.

(** The number that a string of decimal digits denotes, digit by
    digit with its power of ten. *)
Fixpoint dec_value (ds : string) : Z :=
  match ds with
  | EmptyString => 0
  | String c r => digit_val c * 10 ^ Z.of_nat (String.length r) + dec_value r
  end.

(** One decimal digit or more. *)
Definition numeral (ds : string) : Prop :=
  ds <> EmptyString /\ str_forall is_digit ds = true.

(** An integer in the usual sense: an optional sign and digits, nothing
    before and nothing after, with a value that fits [int]. *)
Definition integer_literal (s : string) : Prop :=
  exists sg ds,
    s = sign_text sg ++ ds
    /\ numeral ds
    /\ in_int (sign_apply sg (dec_value ds)).

(** The id fields that the load accepts, and the id each one gives:
    white space, an optional sign, digits, then any text that does not
    go on with a digit; the number written fits [int]. *)
Definition accepted_id (s : string) (i : Z) : Prop :=
  exists w sg ds rest,
    s = w ++ sign_text sg ++ ds ++ rest
    /\ str_forall isspace w = true
    /\ numeral ds
    /\ starts_with_digit rest = false
    /\ i = sign_apply sg (dec_value ds)
    /\ in_int i.

Definition id_syntax (s : string) : Prop := exists i, accepted_id s i.

(** * Theorems *)

(** ** Decimal output and [std::stoi] *)

Lemma digit_char_spec d :
  0 <= d < 10 -> is_digit (digit_char d) = true /\ digit_val (digit_char d) = d.
Proof.
  intros H.
  assert (d = 0 \/ d = 1 \/ d = 2 \/ d = 3 \/ d = 4 \/ d = 5 \/ d = 6
          \/ d = 7 \/ d = 8 \/ d = 9) as Hd by lia.
  repeat (destruct Hd as [Hd | Hd]; [subst d; split; reflexivity |]).
  subst d; split; reflexivity.
Qed.

Lemma strtol_digits_of fuel :
  forall n acc, 0 <= n < 10 ^ Z.of_nat (S fuel) ->
    strtol_digits 0 (digits_of fuel n acc) = strtol_digits n acc.
Proof.
  assert (Hone : forall n acc, 0 <= n < 10 ->
    strtol_digits 0 (String (digit_char (n mod 10)) acc) = strtol_digits n acc).
  { intros n acc Hn. cbn [strtol_digits].
    rewrite Z.mod_small by lia.
    destruct (digit_char_spec n Hn) as [-> ->]. reflexivity. }
  induction fuel as [| f IH]; intros n acc Hn.
  - apply Hone. exact Hn.
  - cbn [digits_of].
    destruct (Z.eqb_spec (n / 10) 0) as [Hz | Hz].
    + apply Hone. pose proof (Z.div_mod n 10 ltac:(lia)).
      pose proof (Z.mod_pos_bound n 10 ltac:(lia)). lia.
    + rewrite IH.
      * cbn [strtol_digits].
        destruct (digit_char_spec (n mod 10)) as [-> ->].
        { apply Z.mod_pos_bound. lia. }
        f_equal. pose proof (Z.div_mod n 10 ltac:(lia)). lia.
      * split; [apply Z.div_pos; lia |].
        apply Z.div_lt_upper_bound; [lia |].
        replace (Z.of_nat (S (S f))) with (1 + Z.of_nat (S f)) in Hn by lia.
        rewrite Z.pow_add_r in Hn by lia.
        change (10 ^ 1) with 10 in Hn. lia.
Qed.

Lemma digits_of_digits fuel :
  forall n acc, str_forall is_digit acc = true ->
    str_forall is_digit (digits_of fuel n acc) = true.
Proof.
  assert (Hd : forall n, is_digit (digit_char (n mod 10)) = true).
  { intros n. apply digit_char_spec. apply Z.mod_pos_bound. lia. }
  induction fuel as [| f IH]; intros n acc Hacc; cbn [digits_of].
  - cbn [str_forall]. rewrite Hd, Hacc. reflexivity.
  - destruct (n / 10 =? 0).
    + cbn [str_forall]. rewrite Hd, Hacc. reflexivity.
    + apply IH. cbn [str_forall]. rewrite Hd, Hacc. reflexivity.
Qed.

Lemma digits_of_nonempty fuel :
  forall n acc, digits_of fuel n acc <> EmptyString.
Proof.
  induction fuel as [| f IH]; intros n acc; cbn [digits_of].
  - discriminate.
  - destruct (n / 10 =? 0); [discriminate | apply IH].
Qed.

Lemma is_digit_not_space c : is_digit c = true -> isspace c = false.
Proof.
  unfold is_digit, isspace. cbv zeta. intros H.
  apply andb_true_iff in H. destruct H as [H1 H2].
  apply Nat.leb_le in H1. apply Nat.leb_le in H2.
  apply orb_false_iff. split.
  - apply Nat.eqb_neq. lia.
  - apply andb_false_iff. right. apply Nat.leb_gt. lia.
Qed.

Lemma is_digit_not_sign c :
  is_digit c = true -> Ascii.eqb c "-" = false /\ Ascii.eqb c "+" = false.
Proof.
  intros H. split.
  - destruct (Ascii.eqb_spec c "-"); [subst c; discriminate H | reflexivity].
  - destruct (Ascii.eqb_spec c "+"); [subst c; discriminate H | reflexivity].
Qed.

(** [std::stoi] on a string that starts with a digit. *)
Lemma stoi_unsigned c r :
  is_digit c = true ->
  stoi (String c r) =
    if in_intb (strtol_digits 0 (String c r))
    then Ok (strtol_digits 0 (String c r)) else Throw out_of_range.
Proof.
  intros H. unfold stoi. cbn [skip_space].
  rewrite (is_digit_not_space c H).
  destruct (is_digit_not_sign c H) as [-> ->].
  cbn [starts_with_digit]. rewrite H. reflexivity.
Qed.

Lemma in_intb_spec z : in_intb z = true <-> in_int z.
Proof.
  unfold in_intb, in_int. rewrite andb_true_iff, !Z.leb_le. reflexivity.
Qed.

Lemma int_bounds : INT_MIN = -2147483648 /\ INT_MAX = 2147483647.
Proof. split; reflexivity. Qed.

(** What [operator<<] prints for an [int], [std::stoi] reads back. *)
Lemma stoi_put_int z : in_int z -> stoi (put_int z) = Ok z.
Proof.
  intros Hz. pose proof int_bounds as [Hmin Hmax]. unfold in_int in Hz.
  unfold put_int. destruct (Z.ltb_spec z 0) as [Hneg | Hpos].
  - unfold stoi. cbn [skip_space].
    change (isspace "-") with false. cbv iota.
    change (Ascii.eqb "-" "-") with true. cbv iota.
    pose proof (digits_of_digits 9 (- z) EmptyString eq_refl) as Hd.
    pose proof (digits_of_nonempty 9 (- z) EmptyString) as Hne.
    pose proof (strtol_digits_of 9 (- z) EmptyString) as Hv.
    destruct (digits_of 9 (- z) EmptyString) as [| c r]; [congruence |].
    cbn [str_forall] in Hd. apply andb_true_iff in Hd. destruct Hd as [Hc _].
    cbn [starts_with_digit]. rewrite Hc.
    rewrite Hv by (change (10 ^ Z.of_nat 10) with 10000000000; lia).
    cbn [strtol_digits]. rewrite Z.opp_involutive.
    destruct (in_intb_spec z) as [_ ->]; [reflexivity | unfold in_int; lia].
  - pose proof (digits_of_digits 9 z EmptyString eq_refl) as Hd.
    pose proof (digits_of_nonempty 9 z EmptyString) as Hne.
    pose proof (strtol_digits_of 9 z EmptyString) as Hv.
    destruct (digits_of 9 z EmptyString) as [| c r]; [congruence |].
    cbn [str_forall] in Hd. apply andb_true_iff in Hd. destruct Hd as [Hc _].
    rewrite (stoi_unsigned c r Hc).
    rewrite Hv by (change (10 ^ Z.of_nat 10) with 10000000000; lia).
    cbn [strtol_digits].
    destruct (in_intb_spec z) as [_ ->]; [reflexivity | unfold in_int; lia].
Qed.

(** What [std::stoi] takes for an integer. *)
Example stoi_plain : stoi "42" = Ok 42.
Proof. reflexivity. Qed.

Example stoi_lenient : stoi "  -12abc" = Ok (-12).
Proof. reflexivity. Qed.

Example stoi_empty : stoi "" = Throw invalid_argument.
Proof. reflexivity. Qed.

Example stoi_no_digit : stoi "abc" = Throw invalid_argument.
Proof. reflexivity. Qed.

Example stoi_too_large : stoi "2147483648" = Throw out_of_range.
Proof. reflexivity. Qed.

(** ** Strings *)

Lemma append_assoc' (a b c : string) : (a ++ b) ++ c = a ++ (b ++ c).
Proof. induction a as [| x a IH]; cbn; [reflexivity | now rewrite IH]. Qed.

Lemma str_forall_app p (a b : string) :
  str_forall p (a ++ b) = str_forall p a && str_forall p b.
Proof.
  induction a as [| x a IH]; cbn; [reflexivity |].
  rewrite IH. apply andb_assoc.
Qed.

Lemma str_forall_impl (p q : ascii -> bool) s :
  (forall c, p c = true -> q c = true) ->
  str_forall p s = true -> str_forall q s = true.
Proof.
  intros Hpq. induction s as [| x s IH]; cbn; [reflexivity |].
  intros H. apply andb_true_iff in H. destruct H as [Hx Hs].
  rewrite (Hpq x Hx), (IH Hs). reflexivity.
Qed.

Lemma plain_no_bar s : plain s -> str_forall (differs BAR) s = true.
Proof.
  apply str_forall_impl. intros c H. unfold plain_char in H.
  apply andb_true_iff in H. apply H.
Qed.

Lemma plain_no_nl s : plain s -> str_forall (differs NL) s = true.
Proof.
  apply str_forall_impl. intros c H. unfold plain_char in H.
  apply andb_true_iff in H. apply H.
Qed.

(** ** [std::getline] *)

Lemma extract_until_shorter d s :
  forall w r, extract_until d s = (w, Some r) ->
    (String.length r < String.length s)%nat.
Proof.
  induction s as [| c s IH]; intros w r H; cbn in H; [discriminate |].
  destruct (Ascii.eqb c d).
  - inversion H; subst. cbn. lia.
  - destruct (extract_until d s) as [w' [r' |]]; [| discriminate].
    inversion H; subst. specialize (IH _ _ eq_refl). cbn. lia.
Qed.

Lemma extract_until_found d a r :
  str_forall (differs d) a = true ->
  extract_until d (a ++ String d r) = (a, Some r).
Proof.
  induction a as [| x a IH]; cbn; intros H.
  - rewrite Ascii.eqb_refl. reflexivity.
  - apply andb_true_iff in H. destruct H as [Hx Ha].
    unfold differs in Hx. apply negb_true_iff in Hx. rewrite Hx.
    rewrite (IH Ha). reflexivity.
Qed.

Lemma extract_until_end d a :
  str_forall (differs d) a = true -> extract_until d a = (a, None).
Proof.
  induction a as [| x a IH]; cbn; intros H; [reflexivity |].
  apply andb_true_iff in H. destruct H as [Hx Ha].
  unfold differs in Hx. apply negb_true_iff in Hx. rewrite Hx.
  rewrite (IH Ha). reflexivity.
Qed.

Lemma getline_open s str d :
  getline (open s) str d =
    match extract_until d s with
    | (w, Some r) => (open r, w)
    | (w, None) =>
        ({| buf := EmptyString; eofbit := true;
            failbit := match w with EmptyString => true | _ => false end |}, w)
    end.
Proof. reflexivity. Qed.

Lemma getline_at_eof b f str d :
  getline {| buf := b; eofbit := true; failbit := f |} str d =
    ({| buf := b; eofbit := true; failbit := true |}, str).
Proof. reflexivity. Qed.

Lemma getlines_extract s :
  getlines s =
    match extract_until NL s with
    | (w, Some r) => w :: getlines r
    | (w, None) => match w with EmptyString => [] | _ => [w] end
    end.
Proof.
  induction s as [| c s IH]; cbn; [reflexivity |].
  destruct (Ascii.eqb c NL); [reflexivity |].
  rewrite IH. destruct (extract_until NL s) as [w [r |]]; [reflexivity |].
  destruct w; reflexivity.
Qed.

Lemma split_extract d s :
  split_on d s =
    match extract_until d s with
    | (w, Some r) => w :: split_on d r
    | (w, None) => [w]
    end.
Proof.
  induction s as [| c s IH]; cbn; [reflexivity |].
  destruct (Ascii.eqb c d); [reflexivity |].
  rewrite IH. destruct (extract_until d s) as [w [r |]]; reflexivity.
Qed.

Lemma getlines_line a r :
  str_forall (differs NL) a = true ->
  getlines (a ++ String NL r) = a :: getlines r.
Proof.
  intros H. rewrite getlines_extract, (extract_until_found NL a r H).
  reflexivity.
Qed.

Lemma split_on_field d a r :
  str_forall (differs d) a = true ->
  split_on d (a ++ String d r) = a :: split_on d r.
Proof.
  intros H. rewrite split_extract, (extract_until_found d a r H).
  reflexivity.
Qed.

Lemma split_on_last d a :
  str_forall (differs d) a = true -> split_on d a = [a].
Proof.
  intros H. rewrite split_extract, (extract_until_end d a H). reflexivity.
Qed.

(** ** [loadContacts] *)

(** One iteration of the loop: the four [std::getline]s on the line
    yield its first four fields, a missing field being left empty. *)
Lemma parse_line_fields line :
  parse_line line =
    match stoi (field 0 line) with
    | Throw e => Throw e
    | Ok i =>
        Ok (contact_of_line i line, field 0 line)
    end.
Proof.
  unfold parse_line, contact_of_line, field.
  rewrite getline_open, (split_extract BAR line).
  destruct (extract_until BAR line) as [w0 [r0 |]]; cbn [nth];
    destruct (stoi w0) as [i | e]; try reflexivity.
  rewrite getline_open, (split_extract BAR r0).
  destruct (extract_until BAR r0) as [w1 [r1 |]]; cbn [nth].
  - rewrite getline_open, (split_extract BAR r1).
    destruct (extract_until BAR r1) as [w2 [r2 |]]; cbn [nth].
    + rewrite getline_open, (split_extract BAR r2).
      destruct (extract_until BAR r2) as [w3 [r3 |]]; reflexivity.
    + rewrite getline_at_eof. reflexivity.
  - rewrite !getline_at_eof. reflexivity.
Qed.

Lemma load_loop_lines fuel :
  forall text line acc, (String.length text < fuel)%nat ->
    load_loop fuel (open text) line acc
    = Some (decode_lines (getlines text) acc).
Proof.
  induction fuel as [| f IH]; intros text line acc Hlen; [lia |].
  cbn [load_loop]. rewrite getline_open, getlines_extract.
  destruct (extract_until NL text) as [w [r |]] eqn:E.
  - change (to_bool (open r)) with true. cbv iota. cbn [decode_lines].
    destruct (parse_line w) as [[c l] | e]; [| reflexivity].
    apply IH. pose proof (extract_until_shorter _ _ _ _ E). lia.
  - destruct w as [| x w].
    + reflexivity.
    + cbn [to_bool failbit negb decode_lines].
      destruct (parse_line (String x w)) as [[c l] | e]; [| reflexivity].
      destruct f as [| f'].
      * destruct text; cbn in E; [discriminate | cbn in Hlen; lia].
      * reflexivity.
Qed.

(** [loadContacts] returns (the loop has fuel enough), and what it
    returns is determined line by line. *)
Lemma loadContacts_lines text :
  loadContacts (Some text) = Some (decode_lines (getlines text) []).
Proof. unfold loadContacts. apply load_loop_lines. lia. Qed.

Lemma decode_lines_throw ls :
  forall acc,
    (exists e, decode_lines ls acc = Throw e) <->
    (exists l, In l ls /\ exists e, stoi (field 0 l) = Throw e).
Proof.
  induction ls as [| l ls IH]; intros acc; cbn [decode_lines].
  - split; [intros [e H]; discriminate | intros [l [[] _]]].
  - rewrite parse_line_fields.
    destruct (stoi (field 0 l)) as [i | e] eqn:E.
    + rewrite IH. split.
      * intros [l' [Hin H]]. exists l'. split; [right; exact Hin | exact H].
      * intros [l' [[-> | Hin] [e H]]]; [congruence |].
        exists l'. split; [exact Hin | exists e; exact H].
    + split; intros _; [| exists e; reflexivity].
      exists l. split; [left; reflexivity | exists e; exact E].
Qed.

Lemma decode_lines_app ls1 :
  forall ls2 acc cs,
    decode_lines ls1 acc = Ok cs ->
    decode_lines (ls1 ++ ls2)%list acc = decode_lines ls2 cs.
Proof.
  induction ls1 as [| l ls1 IH]; intros ls2 acc cs H; cbn in *.
  - inversion H. reflexivity.
  - destruct (parse_line l) as [[c s] | e]; [| discriminate].
    apply IH. exact H.
Qed.

Lemma decode_lines_valid ls :
  forall acc, (forall l, In l ls -> valid_id l) ->
    exists cs, decode_lines ls acc = Ok (acc ++ cs)%list
               /\ List.length cs = List.length ls.
Proof.
  induction ls as [| l ls IH]; intros acc Hv; cbn [decode_lines].
  - exists []. rewrite app_nil_r. split; reflexivity.
  - rewrite parse_line_fields.
    destruct (Hv l (or_introl eq_refl)) as [i ->].
    destruct (IH (acc ++ [contact_of_line i l])%list) as [cs [H Hl]].
    { intros l' Hin. apply Hv. right. exact Hin. }
    exists (contact_of_line i l :: cs). split.
    + rewrite H, <- app_assoc. reflexivity.
    + cbn. rewrite Hl. reflexivity.
Qed.

(** ** [saveContacts] *)

Lemma put_contact_line c rest :
  put_contact c ++ rest = line_of c ++ String NL rest.
Proof.
  unfold put_contact, line_of. rewrite !append_assoc'. reflexivity.
Qed.

Lemma digit_is_plain c : is_digit c = true -> plain_char c = true.
Proof.
  intros H. unfold plain_char.
  destruct (Ascii.eqb_spec c BAR) as [-> | _]; [discriminate H |].
  destruct (Ascii.eqb_spec c NL) as [-> | _]; [discriminate H |].
  reflexivity.
Qed.

Lemma put_int_plain z : plain (put_int z).
Proof.
  unfold plain, put_int. destruct (z <? 0); [cbn [str_forall] |];
    try (change (plain_char "-") with true; cbn [andb]);
    apply (str_forall_impl is_digit _ _ digit_is_plain);
    apply digits_of_digits; reflexivity.
Qed.

Lemma line_of_fields c :
  storable c ->
  split_on BAR (line_of c) = [put_int (id c); name c; phone c; email c].
Proof.
  intros (_ & Hn & Hp & He). unfold line_of.
  change ("|" ++ name c ++ "|" ++ phone c ++ "|" ++ email c)
    with (String BAR (name c ++ String BAR (phone c ++ String BAR (email c)))).
  rewrite split_on_field by (apply plain_no_bar, put_int_plain).
  rewrite split_on_field by (apply plain_no_bar, Hn).
  rewrite split_on_field by (apply plain_no_bar, Hp).
  rewrite split_on_last by (apply plain_no_bar, He).
  reflexivity.
Qed.

Lemma line_of_no_newline c :
  storable c -> str_forall (differs NL) (line_of c) = true.
Proof.
  intros (_ & Hn & Hp & He). unfold line_of.
  rewrite !str_forall_app.
  rewrite (plain_no_nl _ (put_int_plain (id c))).
  rewrite (plain_no_nl _ Hn), (plain_no_nl _ Hp), (plain_no_nl _ He).
  reflexivity.
Qed.

Lemma parse_line_of c :
  storable c -> parse_line (line_of c) = Ok (c, put_int (id c)).
Proof.
  intros Hc. rewrite parse_line_fields. unfold contact_of_line, field.
  rewrite (line_of_fields c Hc). cbn [nth].
  destruct Hc as (Hi & _). rewrite (stoi_put_int _ Hi).
  destruct c; reflexivity.
Qed.

Lemma getlines_saveContacts cs :
  Forall storable cs -> getlines (saveContacts cs) = map line_of cs.
Proof.
  induction 1 as [| c cs Hc _ IH]; cbn [saveContacts map]; [reflexivity |].
  rewrite put_contact_line, getlines_line by (apply line_of_no_newline, Hc).
  rewrite IH. reflexivity.
Qed.

Lemma decode_lines_of cs :
  Forall storable cs ->
  forall acc, decode_lines (map line_of cs) acc = Ok (acc ++ cs)%list.
Proof.
  induction 1 as [| c cs Hc _ IH]; intros acc; cbn [map decode_lines].
  - rewrite app_nil_r. reflexivity.
  - rewrite (parse_line_of c Hc), IH, <- app_assoc. reflexivity.
Qed.

(** C1.  For every sequence of Contacts whose ids are [int]s and whose
    name, phone and email contain neither the delimiter nor a newline,
    the text written by [saveContacts] is read back by [loadContacts]
    as exactly that sequence: same ids, same fields, same order. *)
Theorem save_load_roundtrip (cs : list Contact) :
  Forall storable cs ->
  loadContacts (Some (saveContacts cs)) = Some (Ok cs).
Proof.
  intros H. rewrite loadContacts_lines, (getlines_saveContacts cs H).
  rewrite (decode_lines_of cs H). reflexivity.
Qed.

Lemma storable_intro c :
  in_intb (id c) = true ->
  str_forall plain_char (name c) = true ->
  str_forall plain_char (phone c) = true ->
  str_forall plain_char (email c) = true ->
  storable c.
Proof.
  intros Hi Hn Hp He. repeat split; try assumption; apply in_intb_spec, Hi.
Qed.

Lemma save_load_roundtrip_witness :
  let cs := [ {| id := 1; name := "Ana"; phone := "555-1111";
                 email := "ana@x.com" |};
              {| id := -7; name := ""; phone := " 5 "; email := "" |} ] in
  loadContacts (Some (saveContacts cs)) = Some (Ok cs).
Proof.
  intros cs. apply (save_load_roundtrip cs).
  repeat constructor; apply storable_intro; reflexivity.
Defined.

(** C3 as stated fails: a text with an empty line between two records
    makes [loadContacts] throw, while the same text without the empty
    line loads two Contacts. *)
Lemma empty_line_counterexample :
  let text := "1|Ana|555-1111|ana@x.com" ++ String NL (String NL
              ("2|Bo|555-2222|bo@x.com" ++ String NL EmptyString)) in
  loadContacts (Some text) = Some (Throw invalid_argument)
  /\ loadContacts (Some (drop_empty_lines text))
     = Some (Ok [ {| id := 1; name := "Ana"; phone := "555-1111";
                     email := "ana@x.com" |};
                  {| id := 2; name := "Bo"; phone := "555-2222";
                     email := "bo@x.com" |} ])
  /\ loadContacts (Some text) <> loadContacts (Some (drop_empty_lines text)).
Proof.
  cbv zeta. split; [reflexivity |]. split; [reflexivity |].
  vm_compute. discriminate.
Qed.

(** C3, amended.  [loadContacts] processes every line of the text, the
    empty ones too: an empty line has an empty id field, which
    [std::stoi] rejects, so a text with an empty line makes the load
    throw and no Contacts are produced. *)
Theorem empty_line_is_fatal (text : string) :
  In EmptyString (getlines text) ->
  exists e, loadContacts (Some text) = Some (Throw e).
Proof.
  intros Hin. rewrite loadContacts_lines.
  destruct (decode_lines_throw (getlines text) []) as [_ H].
  destruct H as [e He].
  - exists EmptyString. split; [exact Hin |].
    exists invalid_argument. reflexivity.
  - exists e. rewrite He. reflexivity.
Qed.

Lemma empty_line_is_fatal_witness :
  exists e,
    loadContacts (Some ("1|Ana|5|a" ++ String NL (String NL "2|Bo|6|b")))
    = Some (Throw e).
Proof.
  apply (empty_line_is_fatal ("1|Ana|5|a" ++ String NL (String NL "2|Bo|6|b"))).
  cbn. right. left. reflexivity.
Defined.

Lemma stoi_cases s : (exists i, stoi s = Ok i) \/ (exists e, stoi s = Throw e).
Proof. destruct (stoi s) as [i | e]; [left; exists i | right; exists e]; reflexivity. Qed.

Lemma not_valid_id l : ~ valid_id l <-> exists e, stoi (field 0 l) = Throw e.
Proof.
  unfold valid_id. split.
  - intros H. destruct (stoi_cases (field 0 l)) as [Hi | He]; [contradiction | exact He].
  - intros [e He] [i Hi]. congruence.
Qed.

(** [loadContacts] throws exactly when [std::stoi] throws on the id
    field of some line. *)
Lemma load_throws_iff_bad_id (text : string) :
  ((exists e, loadContacts (Some text) = Some (Throw e))
   <-> (exists l, In l (getlines text) /\ ~ valid_id l))
  /\ ((exists l, In l (getlines text) /\ ~ valid_id l)
      -> forall cs, loadContacts (Some text) <> Some (Ok cs))
  /\ ((forall l, In l (getlines text) -> valid_id l)
      -> exists cs, loadContacts (Some text) = Some (Ok cs)).
Proof.
  rewrite loadContacts_lines.
  assert (Hiff : (exists e, Some (decode_lines (getlines text) []) = Some (Throw e))
                 <-> (exists l, In l (getlines text) /\ ~ valid_id l)).
  { split.
    - intros [e He]. inversion He as [He'].
      destruct (proj1 (decode_lines_throw _ _) (ex_intro _ e He')) as [l [Hin Hl]].
      exists l. split; [exact Hin | apply not_valid_id, Hl].
    - intros [l [Hin Hl]]. apply not_valid_id in Hl.
      destruct (proj2 (decode_lines_throw (getlines text) [])) as [e He].
      + exists l. split; assumption.
      + exists e. rewrite He. reflexivity. }
  split; [exact Hiff |]. split.
  - intros Hbad cs Hcs. apply Hiff in Hbad. destruct Hbad as [e He].
    rewrite Hcs in He. discriminate He.
  - intros Hv. destruct (decode_lines_valid (getlines text) [] Hv) as [cs [H _]].
    exists cs. rewrite H. reflexivity.
Qed.

Lemma nth_missing (fs : list string) k :
  (List.length fs <= k)%nat -> nth k fs EmptyString = EmptyString.
Proof. intros H. apply nth_overflow. exact H. Qed.

(** C10.  A line whose id field is accepted by [std::stoi] yields one
    Contact whatever the number of its fields, provided the other lines
    load: the Contact has the line's id and its second, third and
    fourth fields, and a field that the line does not have (or an email
    that is empty before the end of the line) is the empty string. *)
Theorem short_line_still_loads (text : string) (l1 l2 : list string)
    (line : string) (i : Z) :
  getlines text = (l1 ++ line :: l2)%list ->
  stoi (field 0 line) = Ok i ->
  (forall l, In l (l1 ++ l2)%list -> valid_id l) ->
  exists cs1 c cs2,
    loadContacts (Some text) = Some (Ok (cs1 ++ c :: cs2)%list)
    /\ List.length cs1 = List.length l1
    /\ List.length cs2 = List.length l2
    /\ id c = i
    /\ name c = field 1 line
    /\ phone c = field 2 line
    /\ email c = field 3 line
    /\ ((List.length (split_on BAR line) < 4)%nat -> email c = EmptyString)
    /\ ((List.length (split_on BAR line) < 3)%nat -> phone c = EmptyString)
    /\ ((List.length (split_on BAR line) < 2)%nat -> name c = EmptyString).
Proof.
  intros Hlines Hid Hothers. rewrite loadContacts_lines, Hlines.
  destruct (decode_lines_valid l1 []) as [cs1 [H1 Hlen1]].
  { intros l Hin. apply Hothers. apply in_or_app. left. exact Hin. }
  destruct (decode_lines_valid l2 (cs1 ++ [contact_of_line i line])%list)
    as [cs2 [H2 Hlen2]].
  { intros l Hin. apply Hothers. apply in_or_app. right. exact Hin. }
  exists cs1, (contact_of_line i line), cs2.
  split.
  - rewrite (decode_lines_app l1 (line :: l2) [] _ H1).
    cbn [decode_lines app]. rewrite parse_line_fields, Hid, H2.
    rewrite <- app_assoc. reflexivity.
  - repeat split; try assumption; try reflexivity;
      intros Hshort; cbn [contact_of_line email phone name]; unfold field;
      apply nth_missing; lia.
Qed.

Lemma short_line_still_loads_witness :
  exists cs1 c cs2,
    loadContacts (Some ("1|Ana|5|a" ++ String NL ("7|Bo" ++ String NL "9|Cy|6|c")))
    = Some (Ok (cs1 ++ c :: cs2)%list)
    /\ List.length cs1 = 1%nat /\ List.length cs2 = 1%nat
    /\ id c = 7 /\ name c = "Bo" /\ phone c = EmptyString
    /\ email c = EmptyString.
Proof.
  destruct (short_line_still_loads
              ("1|Ana|5|a" ++ String NL ("7|Bo" ++ String NL "9|Cy|6|c"))
              ["1|Ana|5|a"] ["9|Cy|6|c"] "7|Bo" 7)
    as (cs1 & c & cs2 & H & Hl1 & Hl2 & Hi & Hn & Hp & He & _).
  - reflexivity.
  - reflexivity.
  - intros l [<- | [<- | []]]; [exists 1 | exists 9]; reflexivity.
  - exists cs1, c, cs2. repeat split; assumption.
Defined.

(** ** [nextId] and [addContact] *)

Lemma fold_max_step_ge cs :
  forall m, m <= fold_left max_step cs m
            /\ forall c, In c cs -> id c <= fold_left max_step cs m.
Proof.
  induction cs as [| x cs IH]; intros m; cbn [fold_left].
  - split; [lia | intros c []].
  - destruct (IH (max_step m x)) as [Hm Hin].
    assert (Hx : m <= max_step m x /\ id x <= max_step m x).
    { unfold max_step. destruct (Z.gtb_spec (id x) m); lia. }
    split; [lia |].
    intros c [<- | Hc]; [lia | apply Hin, Hc].
Qed.

Lemma max_id_nonneg cs : 0 <= max_id cs.
Proof. apply (fold_max_step_ge cs 0). Qed.

Lemma max_id_ge cs c : In c cs -> id c <= max_id cs.
Proof. apply (fold_max_step_ge cs 0). Qed.

Lemma fold_max_step_le cs :
  forall m b, m <= b -> (forall c, In c cs -> id c <= b) ->
    fold_left max_step cs m <= b.
Proof.
  induction cs as [| x cs IH]; intros m b Hm Hb; cbn [fold_left]; [exact Hm |].
  apply IH.
  - unfold max_step. pose proof (Hb x (or_introl eq_refl)).
    destruct (Z.gtb_spec (id x) m); lia.
  - intros c Hc. apply Hb. right. exact Hc.
Qed.

Lemma max_id_le cs b :
  0 <= b -> (forall c, In c cs -> id c <= b) -> max_id cs <= b.
Proof. apply fold_max_step_le. Qed.

Lemma max_id_snoc cs c : max_id (cs ++ [c]) = max_step (max_id cs) c.
Proof. unfold max_id. rewrite fold_left_app. reflexivity. Qed.

Lemma wrap_int_small z : in_int z -> wrap_int z = z.
Proof.
  pose proof int_bounds as [Hmin Hmax]. unfold in_int, wrap_int. intros H.
  change (2 ^ 31) with 2147483648. change (2 ^ 32) with 4294967296.
  rewrite Z.mod_small by lia. lia.
Qed.

(** As long as the result fits [int], [nextId] is one more than the
    largest id, or 1 when no id is positive. *)
Lemma nextId_max cs : max_id cs < INT_MAX -> nextId cs = max_id cs + 1.
Proof.
  intros H. unfold nextId. fold (max_id cs). apply wrap_int_small.
  pose proof (max_id_nonneg cs). pose proof int_bounds as [Hmin Hmax].
  unfold in_int. lia.
Qed.

Lemma max_id_after_add cs n p e :
  max_id cs < INT_MAX ->
  max_id (cs ++ [ {| id := nextId cs; name := n; phone := p; email := e |} ])
  = max_id cs + 1.
Proof.
  intros H. rewrite max_id_snoc. unfold max_step. cbn [id].
  rewrite (nextId_max cs H).
  destruct (Z.gtb_spec (max_id cs + 1) (max_id cs)); lia.
Qed.

Lemma add_all_ids inputs :
  forall st,
    max_id (contacts st) + Z.of_nat (List.length inputs) <= INT_MAX ->
    snd (add_all inputs st)
    = map (fun k => max_id (contacts st) + Z.of_nat k)
          (seq 1 (List.length inputs))
    /\ ids (contacts (fst (add_all inputs st)))
       = (ids (contacts st) ++ snd (add_all inputs st))%list.
Proof.
  induction inputs as [| [[n p] e] rest IH]; intros st Hb; cbn [add_all].
  - cbn. rewrite app_nil_r. split; reflexivity.
  - cbn [List.length] in Hb.
    assert (Hlt : max_id (contacts st) < INT_MAX) by lia.
    unfold addContact. cbn [id].
    set (c := {| id := nextId (contacts st); name := n; phone := p; email := e |}).
    set (st1 := {| contacts := (contacts st ++ [c])%list;
                   data_file := Some (saveContacts (contacts st ++ [c])) |}).
    assert (Hmax : max_id (contacts st1) = max_id (contacts st) + 1)
      by apply (max_id_after_add _ n p e Hlt).
    destruct (IH st1) as [Hids Hcs]; [rewrite Hmax; lia |].
    destruct (add_all rest st1) as [st2 l] eqn:E. cbn [fst snd] in *.
    split.
    + cbn [List.length seq map]. f_equal.
      * rewrite (nextId_max _ Hlt). lia.
      * rewrite Hids, <- (seq_shift (List.length rest) 1), map_map, Hmax.
        apply map_ext. intros k. lia.
    + rewrite Hcs. cbn [st1 contacts]. unfold ids. rewrite map_app, <- app_assoc.
      reflexivity.
Qed.

(** C2.  Starting from the empty collection, the ids that a run of
    [addContact]s assigns are 1, 2, 3, ... in this order, and these are
    the ids of the collection afterwards; each one is [nextId] of the
    collection at that time, which is 1 for the empty collection and
    one more than the largest id otherwise.  (Ids are [int]s: the run
    has at most [INT_MAX] additions.) *)
Theorem add_ids_count_from_one (inputs : list (string * string * string)) :
  Z.of_nat (List.length inputs) <= INT_MAX ->
  snd (add_all inputs empty_store)
  = map Z.of_nat (seq 1 (List.length inputs))
  /\ ids (contacts (fst (add_all inputs empty_store)))
     = map Z.of_nat (seq 1 (List.length inputs))
  /\ nextId [] = 1
  /\ (forall cs, max_id cs < INT_MAX ->
        nextId cs = max_id cs + 1
        /\ forall c, In c cs -> id c < nextId cs).
Proof.
  intros Hb.
  destruct (add_all_ids inputs empty_store) as [H1 H2];
    [change (max_id (contacts empty_store)) with 0; lia |].
  cbn [empty_store contacts ids map app] in H1, H2.
  change (max_id []) with 0 in H1.
  assert (E : snd (add_all inputs empty_store)
              = map Z.of_nat (seq 1 (List.length inputs))).
  { rewrite H1. apply map_ext. intros k. lia. }
  split; [exact E |]. split; [rewrite H2; exact E |].
  split; [reflexivity |].
  intros cs Hlt. split; [apply nextId_max, Hlt |].
  intros c Hc. rewrite (nextId_max cs Hlt).
  pose proof (max_id_ge cs c Hc). lia.
Qed.

Lemma add_ids_count_from_one_witness :
  snd (add_all [("Ana", "555-1111", "ana@x.com"); ("Bo", "", "");
                ("Cy", "555-2222", "cy@x.com")] empty_store)
  = [1; 2; 3].
Proof.
  apply (add_ids_count_from_one
           [("Ana", "555-1111", "ana@x.com"); ("Bo", "", "");
            ("Cy", "555-2222", "cy@x.com")]).
  vm_compute. discriminate.
Defined.

(** ** [deleteContact] *)

Lemma subseq_filter {A} (p : A -> bool) l : subseq (filter p l) l.
Proof.
  induction l as [| x l IH]; cbn; [constructor |].
  destruct (p x); constructor; exact IH.
Qed.

Lemma erase_remove_if p v :
  erase_from (snd (remove_if p v)) (fst (remove_if p v))
  = filter (fun c => negb (p c)) v.
Proof.
  unfold erase_from, remove_if. cbn [fst snd].
  rewrite firstn_app, Nat.sub_diag, firstn_O, app_nil_r.
  apply firstn_all.
Qed.

Lemma filter_drops {A} (p : A -> bool) l :
  List.length (filter p l) <> List.length l ->
  exists x, In x l /\ p x = false.
Proof.
  induction l as [| x l IH]; cbn [filter List.length]; [congruence |].
  destruct (p x) eqn:E.
  - cbn [List.length]. intros H. destruct IH as [y [Hy Hp]]; [congruence |].
    exists y. split; [right; exact Hy | exact Hp].
  - intros _. exists x. split; [left; reflexivity | exact E].
Qed.

Lemma remove_if_length p v :
  List.length (fst (remove_if p v)) = List.length v.
Proof.
  unfold remove_if. cbn [fst].
  pose proof (filter_length_le (fun c => negb (p c)) v).
  rewrite length_app, length_skipn. lia.
Qed.

(** [deleteContact] reports success only when some Contact has the id. *)
Lemma deleteContact_matched i st st' :
  deleteContact i st = (st', Done) ->
  exists c, In c (contacts st) /\ id c = i.
Proof.
  unfold deleteContact.
  pose proof (remove_if_length (fun c => id c =? i) (contacts st)) as L.
  unfold remove_if in *. cbn [fst] in L. rewrite L.
  destruct (Nat.eqb_spec
              (List.length (filter (fun c => negb (id c =? i)) (contacts st)))
              (List.length (contacts st))) as [_ | Hne];
    cbn [negb]; intros H; [discriminate H |].
  destruct (filter_drops _ _ Hne) as [c [Hc Hp]].
  exists c. split; [exact Hc |].
  apply negb_false_iff, Z.eqb_eq in Hp. exact Hp.
Qed.

Lemma deleteContact_done i st st' :
  deleteContact i st = (st', Done) ->
  contacts st' = filter (fun c => negb (id c =? i)) (contacts st).
Proof.
  unfold deleteContact.
  pose proof (erase_remove_if (fun c => id c =? i) (contacts st)) as E.
  destruct (remove_if (fun c => id c =? i) (contacts st)) as [v it].
  cbn [fst snd] in E.
  destruct (negb (it =? List.length v)%nat); intros H; inversion H.
  cbn [contacts]. exact E.
Qed.

(** C5.  When [deleteContact] succeeds (which it does only when some
    Contact has the id), no Contact of the collection has the id any
    more, every Contact with another id is still there, every Contact
    that is there was there before, with its fields, and the remaining
    Contacts are in the order they had: the collection is the old one
    with the matching Contacts left out. *)
Theorem delete_removes_id_keeps_rest (i : Z) (st st' : Store) :
  deleteContact i st = (st', Done) ->
  (exists c, In c (contacts st) /\ id c = i)
  /\ (forall c, In c (contacts st') -> id c <> i)
  /\ (forall c, In c (contacts st) -> id c <> i -> In c (contacts st'))
  /\ (forall c, In c (contacts st') -> In c (contacts st))
  /\ subseq (contacts st') (contacts st)
  /\ contacts st' = filter (fun c => negb (id c =? i)) (contacts st)
  /\ data_file st' = Some (saveContacts (contacts st')).
Proof.
  intros H. pose proof (deleteContact_done i st st' H) as E.
  split; [apply (deleteContact_matched i st st' H) |].
  repeat split.
  - intros c Hc. rewrite E in Hc. apply filter_In in Hc.
    destruct Hc as [_ Hc]. apply negb_true_iff, Z.eqb_neq in Hc. exact Hc.
  - intros c Hc Hne. rewrite E. apply filter_In. split; [exact Hc |].
    apply negb_true_iff, Z.eqb_neq. exact Hne.
  - intros c Hc. rewrite E in Hc. apply filter_In in Hc. apply Hc.
  - rewrite E. apply subseq_filter.
  - exact E.
  - unfold deleteContact in H.
    destruct (remove_if (fun c => id c =? i) (contacts st)) as [v it].
    destruct (negb (it =? List.length v)%nat); inversion H. reflexivity.
Qed.

Lemma delete_removes_id_keeps_rest_witness :
  let st := {| contacts := [ {| id := 1; name := "Ana"; phone := "1"; email := "a" |};
                             {| id := 2; name := "Bo"; phone := "2"; email := "b" |} ];
               data_file := None |} in
  contacts (fst (deleteContact 1 st))
  = [ {| id := 2; name := "Bo"; phone := "2"; email := "b" |} ].
Proof.
  intros st.
  destruct (delete_removes_id_keeps_rest 1 st (fst (deleteContact 1 st)))
    as (_ & _ & _ & _ & _ & E & _).
  - reflexivity.
  - rewrite E. reflexivity.
Defined.

(** ** [trim] and [editContact] *)

Lemma find_first_not_of_none set s :
  str_forall (fun c => in_set c set) s = true ->
  find_first_not_of set s = None.
Proof.
  induction s as [| c s IH]; cbn; [reflexivity |].
  intros H. apply andb_true_iff in H. destruct H as [Hc Hs].
  rewrite Hc, (IH Hs). reflexivity.
Qed.

Lemma find_last_not_of_bounds set s :
  match find_first_not_of set s, find_last_not_of set s with
  | Some a, Some b => (a <= b < String.length s)%nat
  | None, None => True
  | _, _ => False
  end.
Proof.
  induction s as [| c s IH]; cbn; [exact I |].
  destruct (find_first_not_of set s) as [a |],
           (find_last_not_of set s) as [b |];
    try contradiction; destruct (in_set c set); cbn; try exact I; lia.
Qed.

Lemma substring_nonempty s :
  forall a n, (a < String.length s)%nat -> substring a (S n) s <> EmptyString.
Proof.
  induction s as [| c s IH]; intros a n H; cbn in H; [lia |].
  destruct a as [| a]; cbn; [discriminate |].
  apply IH. lia.
Qed.

(** [trim] returns the empty string exactly on the strings made of
    spaces, tabs, newlines and carriage returns only. *)
Lemma trim_empty_iff s : trim s = EmptyString <-> whitespace_only s.
Proof.
  unfold trim, whitespace_only. split.
  - intros H. pose proof (find_last_not_of_bounds WS s) as B.
    destruct (find_first_not_of WS s) as [a |] eqn:Ea.
    + destruct (find_last_not_of WS s) as [b |]; [| contradiction].
      exfalso. unfold substr in H.
      replace (b - a + 1)%nat with (S (b - a)) in H by lia.
      apply (substring_nonempty s a (b - a)); [lia | exact H].
    + clear H B. induction s as [| c s IH]; [reflexivity |].
      cbn [find_first_not_of str_forall] in Ea |- *.
      destruct (in_set c WS); [| discriminate].
      destruct (find_first_not_of WS s); [discriminate |].
      apply IH. reflexivity.
  - intros H. rewrite (find_first_not_of_none WS s H). reflexivity.
Qed.

Lemma find_last_not_of_none s :
  find_last_not_of WS s = None -> whitespace_only s.
Proof.
  unfold whitespace_only. induction s as [| c s IH];
    cbn [find_last_not_of str_forall]; [reflexivity |].
  destruct (find_last_not_of WS s); [discriminate |].
  destruct (in_set c WS); [intros _; apply IH; reflexivity | discriminate].
Qed.

Lemma substring_0_0 s : substring 0 0 s = EmptyString.
Proof. destruct s; reflexivity. Qed.

Lemma upto_last_cons x s :
  upto_last (String x s) =
    match find_last_not_of WS s with
    | Some _ => String x (upto_last s)
    | None => if in_set x WS then EmptyString else String x EmptyString
    end.
Proof.
  unfold upto_last. cbn [find_last_not_of].
  destruct (find_last_not_of WS s) as [k |]; [reflexivity |].
  destruct (in_set x WS); [reflexivity |].
  cbn [substring]. rewrite substring_0_0. reflexivity.
Qed.

Lemma upto_last_split s :
  (exists r, s = upto_last s ++ r /\ whitespace_only r)
  /\ (forall c, last_char (upto_last s) = Some c -> in_set c WS = false).
Proof.
  induction s as [| x s [[r [E Hr]] Hlast]].
  - split; [exists EmptyString; split; reflexivity | discriminate].
  - rewrite upto_last_cons.
    destruct (find_last_not_of WS s) as [k |] eqn:Ek.
    + split.
      * exists r. split; [cbn [append]; rewrite <- E; reflexivity | exact Hr].
      * intros c. cbn [last_char].
        destruct (last_char (upto_last s)) as [d |] eqn:Ed.
        -- intros H. inversion H; subst. apply Hlast. reflexivity.
        -- unfold upto_last in Ed. rewrite Ek in Ed.
           destruct s; cbn in Ed; [discriminate Ek |].
           destruct (last_char _); discriminate Ed.
    + pose proof (find_last_not_of_none s Ek) as Hs.
      destruct (in_set x WS) eqn:Ex.
      * split; [| discriminate].
        exists (String x s). split; [reflexivity |].
        unfold whitespace_only. cbn [str_forall]. rewrite Ex. exact Hs.
      * split; [exists s; split; [reflexivity | exact Hs] |].
        intros c H. inversion H; subst. exact Ex.
Qed.

Lemma trim_cons_space x s :
  in_set x WS = true -> trim (String x s) = trim s.
Proof.
  intros Hx. unfold trim. cbn [find_first_not_of find_last_not_of].
  rewrite Hx. pose proof (find_last_not_of_bounds WS s) as B.
  destruct (find_first_not_of WS s) as [a |],
           (find_last_not_of WS s) as [b |]; try contradiction; reflexivity.
Qed.

Lemma trim_cons_other x s :
  in_set x WS = false -> trim (String x s) = String x (upto_last s).
Proof.
  intros Hx. unfold trim, upto_last, substr.
  cbn [find_first_not_of find_last_not_of]. rewrite Hx.
  destruct (find_last_not_of WS s) as [k |].
  - rewrite Nat.sub_0_r, Nat.add_1_r. reflexivity.
  - cbn [Nat.sub Nat.add substring]. rewrite substring_0_0. reflexivity.
Qed.

(** [trim s] is [s] without the spaces, tabs, newlines and carriage
    returns at its two ends. *)
Lemma trim_Trimmed s : Trimmed s (trim s).
Proof.
  induction s as [| x s [(l & r & E & Hl & Hr) [Hf Hla]]].
  - split; [| split; discriminate].
    exists EmptyString, EmptyString. repeat split.
  - destruct (in_set x WS) eqn:Ex.
    + rewrite (trim_cons_space x s Ex). split; [| split; assumption].
      exists (String x l), r. split; [cbn [append]; rewrite <- E; reflexivity |].
      split; [| exact Hr].
      unfold whitespace_only. cbn [str_forall]. rewrite Ex. exact Hl.
    + rewrite (trim_cons_other x s Ex).
      destruct (upto_last_split s) as [[r' [E' Hr']] Hlast].
      split.
      * exists EmptyString, r'. split; [| split; [reflexivity | exact Hr']].
        cbn [append]. rewrite <- E'. reflexivity.
      * split; intros c H.
        -- inversion H; subst. exact Ex.
        -- cbn [last_char] in H.
           destruct (last_char (upto_last s)) as [d |];
             inversion H; subst; [apply Hlast; reflexivity | exact Ex].
Qed.

Lemma blank_iff input : blank input = true <-> trim input = EmptyString.
Proof.
  unfold blank. destruct (trim input); split; intros H;
    try reflexivity; discriminate.
Qed.

Lemma edit_fields_all_blank c n p e :
  trim n = EmptyString -> trim p = EmptyString -> trim e = EmptyString ->
  edit_fields c n p e = c.
Proof.
  intros Hn Hp He. unfold edit_fields.
  rewrite (proj2 (blank_iff n) Hn), (proj2 (blank_iff p) Hp),
    (proj2 (blank_iff e) He).
  destruct c; reflexivity.
Qed.

Lemma edit_loop_at i n p e pre :
  forall c post,
    (forall x, In x pre -> id x <> i) -> id c = i ->
    edit_loop i n p e (pre ++ c :: post)
    = Some (pre ++ edit_fields c n p e :: post)%list.
Proof.
  induction pre as [| x pre IH]; intros c post Hpre Hc; cbn [app edit_loop].
  - apply Z.eqb_eq in Hc. rewrite Hc. reflexivity.
  - pose proof (Hpre x (or_introl eq_refl)) as Hx.
    apply Z.eqb_neq in Hx. rewrite Hx.
    rewrite IH; [reflexivity | | exact Hc].
    intros y Hy. apply Hpre. right. exact Hy.
Qed.

(** The first Contact with a given id, and what surrounds it. *)
Lemma first_with_id i cs :
  (exists c, In c cs /\ id c = i) ->
  exists pre c post,
    cs = (pre ++ c :: post)%list
    /\ (forall x, In x pre -> id x <> i) /\ id c = i.
Proof.
  induction cs as [| x cs IH]; intros [c [Hin Hc]]; [destruct Hin |].
  destruct (Z.eq_dec (id x) i) as [Hx | Hx].
  - exists [], x, cs. repeat split; [intros y [] | exact Hx].
  - destruct IH as (pre & c' & post & E & Hpre & Hc').
    + destruct Hin as [-> | Hin]; [contradiction |]. exists c. split; assumption.
    + exists (x :: pre), c', post. rewrite E. repeat split; [| exact Hc'].
      intros y [<- | Hy]; [exact Hx | apply Hpre, Hy].
Qed.

(** C7.  When the collection has a Contact with the id and the three
    inputs are blank (empty once trimmed), [editContact] reports success
    and the collection is what it was: the Contact keeps its name, phone
    and email, and so does every other Contact. *)
Theorem edit_all_blank_changes_nothing (i : Z) (n p e : string) (st : Store) :
  (exists c, In c (contacts st) /\ id c = i) ->
  trim n = EmptyString -> trim p = EmptyString -> trim e = EmptyString ->
  exists st',
    editContact i n p e st = (st', Done)
    /\ contacts st' = contacts st
    /\ data_file st' = Some (saveContacts (contacts st)).
Proof.
  intros Hex Hn Hp He.
  destruct (first_with_id i (contacts st) Hex) as (pre & c & post & E & Hpre & Hc).
  unfold editContact. rewrite E, (edit_loop_at i n p e pre c post Hpre Hc).
  rewrite (edit_fields_all_blank c n p e Hn Hp He).
  eexists. split; [reflexivity |]. split; reflexivity.
Qed.

Lemma edit_all_blank_changes_nothing_witness :
  let c := {| id := 3; name := "Cy"; phone := "555-2222"; email := "cy@x.com" |} in
  let st := {| contacts := [c]; data_file := None |} in
  exists st',
    editContact 3 "" "  " (String TAB "") st = (st', Done)
    /\ contacts st' = [c]
    /\ data_file st' = Some (saveContacts [c]).
Proof.
  intros c st.
  apply (edit_all_blank_changes_nothing 3 "" "  " (String TAB "") st).
  - exists c. split; [left; reflexivity | reflexivity].
  - reflexivity.
  - reflexivity.
  - reflexivity.
Defined.

(** C9.  [editContact] on the first Contact with the id: a field whose
    input is not blank once trimmed becomes the input itself, character
    for character, surrounding white space included (the trimmed string
    is only tested for emptiness); a field whose input is blank keeps
    its value; the id and the other Contacts are untouched. *)
Theorem edit_stores_raw_input (i : Z) (n p e : string) (st : Store)
    (pre post : list Contact) (c : Contact) :
  contacts st = (pre ++ c :: post)%list ->
  (forall x, In x pre -> id x <> i) ->
  id c = i ->
  exists c',
    editContact i n p e st
    = ({| contacts := (pre ++ c' :: post)%list;
          data_file := Some (saveContacts (pre ++ c' :: post)) |}, Done)
    /\ id c' = i
    /\ (trim n <> EmptyString -> name c' = n)
    /\ (trim p <> EmptyString -> phone c' = p)
    /\ (trim e <> EmptyString -> email c' = e)
    /\ (trim n = EmptyString -> name c' = name c)
    /\ (trim p = EmptyString -> phone c' = phone c)
    /\ (trim e = EmptyString -> email c' = email c).
Proof.
  intros E Hpre Hc. exists (edit_fields c n p e).
  unfold editContact. rewrite E, (edit_loop_at i n p e pre c post Hpre Hc).
  split; [reflexivity |]. split; [exact Hc |].
  unfold edit_fields, blank. cbn [name phone email].
  destruct (trim n), (trim p), (trim e); repeat split;
    intros H; try reflexivity; try discriminate H; contradiction H; reflexivity.
Qed.

Lemma edit_stores_raw_input_witness :
  let c := {| id := 3; name := "Cy"; phone := "555-2222"; email := "cy@x.com" |} in
  let st := {| contacts := [c]; data_file := None |} in
  contacts (fst (editContact 3 "  Cy Young " "" "" st))
  = [ {| id := 3; name := "  Cy Young "; phone := "555-2222";
         email := "cy@x.com" |} ]
  /\ trim "  Cy Young " = "Cy Young".
Proof.
  intros c st. split; [| reflexivity].
  destruct (edit_stores_raw_input 3 "  Cy Young " "" "" st [] [] c)
    as (c' & E & _).
  - reflexivity.
  - intros x [].
  - reflexivity.
  - rewrite E. cbn [fst contacts app]. f_equal.
    inversion E. reflexivity.
Defined.

(** ** [std::string::find] and [searchContacts] *)

Lemma starts_with_iff q :
  forall s, starts_with q s = true <-> exists post, s = q ++ post.
Proof.
  induction q as [| a q IH]; intros s; cbn [starts_with].
  - split; [intros _; exists s; reflexivity | reflexivity].
  - destruct s as [| b s].
    + split; [discriminate | intros [post H]; discriminate H].
    + rewrite andb_true_iff, IH. split.
      * intros [Hab [post ->]]. apply Ascii.eqb_eq in Hab. subst b.
        exists post. reflexivity.
      * intros [post H]. cbn in H. inversion H; subst.
        split; [apply Ascii.eqb_refl | exists post; reflexivity].
Qed.

Lemma found_option_map_S r : found (option_map S r) = found r.
Proof. destruct r; reflexivity. Qed.

Lemma find_unfold s q :
  find s q =
    if starts_with q s then Some O
    else match s with
         | EmptyString => None
         | String _ r => option_map S (find r q)
         end.
Proof. destruct s; reflexivity. Qed.

(** [s.find(q) != npos] says that [q] occurs in [s]. *)
Lemma find_found_iff s q : found (find s q) = true <-> Substring q s.
Proof.
  unfold Substring. split.
  - induction s as [| c s IH]; rewrite find_unfold;
      destruct (starts_with q _) eqn:E.
    + intros _. apply starts_with_iff in E. destruct E as [post ->].
      exists EmptyString, post. reflexivity.
    + discriminate.
    + intros _. apply starts_with_iff in E. destruct E as [post ->].
      exists EmptyString, post. reflexivity.
    + rewrite found_option_map_S. intros H.
      destruct (IH H) as (pre & post & ->).
      exists (String c pre), post. reflexivity.
  - intros (pre & post & ->).
    induction pre as [| c pre IH]; rewrite find_unfold.
    + cbn [append].
      rewrite (proj2 (starts_with_iff q (q ++ post)) (ex_intro _ post eq_refl)).
      reflexivity.
    + destruct (starts_with q _); [reflexivity |].
      cbn [append]. rewrite found_option_map_S. exact IH.
Qed.

Lemma matches_iff q c :
  matches q c = true <->
  Substring q (name c) \/ Substring q (phone c) \/ Substring q (email c).
Proof.
  unfold matches. rewrite !orb_true_iff, !find_found_iff. tauto.
Qed.

Lemma matches_empty c : matches EmptyString c = true.
Proof.
  apply matches_iff. left. exists EmptyString, (name c). reflexivity.
Qed.

Lemma search_loop_filter q cs : search_loop q cs = filter (matches q) cs.
Proof.
  induction cs as [| c cs IH]; cbn; [reflexivity |].
  rewrite IH. reflexivity.
Qed.

Lemma filter_all {A} (p : A -> bool) l :
  (forall x, p x = true) -> filter p l = l.
Proof.
  intros H. induction l as [| x l IH]; cbn; [reflexivity |].
  rewrite (H x), IH. reflexivity.
Qed.

(** C6.  [searchContacts] prints exactly the Contacts in whose name,
    phone or email the trimmed query (the query without the white space
    at its two ends) occurs as it is written, in the order of the
    collection; a query that is empty or made of white space only is
    empty once trimmed and every Contact is printed. *)
Theorem search_returns_substring_matches (q : string) (st : Store) :
  Trimmed q (trim q)
  /\ searchContacts q st = filter (matches (trim q)) (contacts st)
  /\ (forall c, matches (trim q) c = true <->
        Substring (trim q) (name c) \/ Substring (trim q) (phone c)
        \/ Substring (trim q) (email c))
  /\ (forall c, In c (searchContacts q st) <->
        In c (contacts st)
        /\ (Substring (trim q) (name c) \/ Substring (trim q) (phone c)
            \/ Substring (trim q) (email c)))
  /\ subseq (searchContacts q st) (contacts st)
  /\ (whitespace_only q -> trim q = EmptyString)
  /\ (trim q = EmptyString -> searchContacts q st = contacts st).
Proof.
  assert (E : searchContacts q st = filter (matches (trim q)) (contacts st))
    by apply search_loop_filter.
  split; [apply trim_Trimmed |].
  split; [exact E |]. split; [intros c; apply matches_iff |].
  split; [| split; [| split]].
  - intros c. rewrite E, filter_In, matches_iff. reflexivity.
  - rewrite E. apply subseq_filter.
  - apply trim_empty_iff.
  - intros Hq. rewrite E, Hq. apply filter_all, matches_empty.
Qed.

(** ** Unique ids *)

Lemma ids_filter (p : Contact -> bool) cs :
  forall c, In c (filter p cs) -> In c cs.
Proof. intros c H. apply filter_In in H. apply H. Qed.

Lemma NoDup_ids_filter p cs : unique_ids cs -> unique_ids (filter p cs).
Proof.
  unfold unique_ids, ids. induction cs as [| c cs IH]; cbn; [trivial |].
  intros H. inversion H as [| x l Hnin Hnd]; subst.
  destruct (p c); cbn; [constructor |]; try (apply IH, Hnd).
  intros Hin. apply Hnin. apply in_map_iff in Hin.
  destruct Hin as [x [Hx Hf]]. apply in_map_iff. exists x.
  split; [exact Hx | apply (ids_filter p cs x Hf)].
Qed.

Lemma NoDup_snoc (l : list Z) z : NoDup l -> ~ In z l -> NoDup (l ++ [z]).
Proof.
  induction l as [| x l IH]; cbn; intros Hnd Hnin.
  - constructor; [intros [] | constructor].
  - inversion Hnd as [| y l' Hx Hl]; subst. constructor.
    + intros Hin. apply in_app_or in Hin. destruct Hin as [Hin | [-> | []]].
      * contradiction.
      * apply Hnin. left. reflexivity.
    + apply IH; [exact Hl |]. intros Hin. apply Hnin. right. exact Hin.
Qed.

Lemma edit_loop_ids i n p e cs :
  forall cs', edit_loop i n p e cs = Some cs' -> ids cs' = ids cs.
Proof.
  induction cs as [| c cs IH]; intros cs' H; cbn [edit_loop] in H;
    [discriminate |].
  destruct (id c =? i).
  - inversion H. reflexivity.
  - destruct (edit_loop i n p e cs) as [r |]; [| discriminate].
    inversion H. unfold ids. cbn [map option_map]. f_equal.
    apply (IH r eq_refl).
Qed.

Lemma max_id_of_ids cs cs' :
  (forall z, In z (ids cs') -> In z (ids cs)) -> max_id cs' <= max_id cs.
Proof.
  intros H. apply max_id_le; [apply max_id_nonneg |].
  intros c Hc. assert (Hin : In (id c) (ids cs)).
  { apply H. apply in_map. exact Hc. }
  apply in_map_iff in Hin. destruct Hin as [x [Hx Hxin]].
  rewrite <- Hx. apply max_id_ge, Hxin.
Qed.

(** One command keeps the ids distinct, and only [Add] raises the
    largest id, by one. *)
Lemma dispatch_unique cmd st :
  unique_ids (contacts st) ->
  max_id (contacts st) + adds_in [cmd] <= INT_MAX ->
  unique_ids (contacts (dispatch cmd st))
  /\ max_id (contacts (dispatch cmd st))
     <= max_id (contacts st) + adds_in [cmd].
Proof.
  intros Hu Hb. destruct cmd as [n p e | | i n p e | i | q]; cbn [dispatch].
  - change (adds_in [Add n p e]) with 1 in *.
    assert (Hlt : max_id (contacts st) < INT_MAX) by lia.
    unfold addContact. cbn [fst contacts].
    rewrite (max_id_after_add _ n p e Hlt). split; [| lia].
    unfold unique_ids, ids. rewrite map_app. cbn [map id].
    apply NoDup_snoc; [exact Hu |].
    intros Hin. apply in_map_iff in Hin. destruct Hin as [c [Hc Hcin]].
    pose proof (max_id_ge _ _ Hcin). rewrite (nextId_max _ Hlt) in Hc. lia.
  - change (adds_in [View]) with 0. split; [exact Hu | lia].
  - change (adds_in [Edit i n p e]) with 0. unfold editContact.
    destruct (edit_loop i n p e (contacts st)) as [cs |] eqn:E;
      cbn [fst contacts]; [| split; [exact Hu | lia]].
    pose proof (edit_loop_ids _ _ _ _ _ _ E) as Hids.
    split; [unfold unique_ids; rewrite Hids; exact Hu |].
    pose proof (max_id_of_ids (contacts st) cs) as Hm.
    rewrite Hids in Hm. specialize (Hm (fun z H => H)). lia.
  - change (adds_in [Delete i]) with 0.
    destruct (deleteContact i st) as [st' [|]] eqn:E; cbn [fst].
    + pose proof (deleteContact_done i st st' E) as Hc. rewrite Hc.
      split; [apply NoDup_ids_filter, Hu |].
      pose proof (max_id_of_ids (contacts st)
                    (filter (fun c => negb (id c =? i)) (contacts st))) as Hm.
      enough (max_id (filter (fun c => negb (id c =? i)) (contacts st))
              <= max_id (contacts st)) by lia.
      apply Hm. intros z Hz. apply in_map_iff in Hz.
      destruct Hz as [c [Hz Hcin]]. apply in_map_iff. exists c.
      split; [exact Hz | apply (ids_filter _ _ _ Hcin)].
    + unfold deleteContact in E.
      destruct (remove_if (fun c => id c =? i) (contacts st)) as [v it].
      destruct (negb (it =? List.length v)%nat); inversion E; subst st'.
      split; [exact Hu | lia].
  - change (adds_in [Search q]) with 0. split; [exact Hu | lia].
Qed.

Lemma adds_in_cons cmd cmds : adds_in (cmd :: cmds) = adds_in [cmd] + adds_in cmds.
Proof.
  unfold adds_in. cbn [filter]. destruct cmd; cbn [List.length]; lia.
Qed.

Lemma adds_in_nonneg cmds : 0 <= adds_in cmds.
Proof. unfold adds_in. lia. Qed.

(** C8 as stated fails: a file with two lines of the same id is loaded
    as two Contacts with the same id, and the commands that follow do
    not repair that. *)
Lemma load_duplicate_ids_counterexample :
  let text := "1|Ana|5|a" ++ String NL ("1|Bo|6|b" ++ String NL "") in
  let cs := [ {| id := 1; name := "Ana"; phone := "5"; email := "a" |};
              {| id := 1; name := "Bo"; phone := "6"; email := "b" |} ] in
  loadContacts (Some text) = Some (Ok cs)
  /\ ~ unique_ids (contacts (menu [] (startup (Some text) cs)))
  /\ ~ unique_ids (contacts (menu [Add "Cy" "7" "c"; Edit 1 "Al" "" ""]
                                  (startup (Some text) cs))).
Proof.
  cbv zeta. split; [reflexivity |].
  split; intros H; vm_compute in H;
    inversion H as [| x l Hnin _]; apply Hnin; left; reflexivity.
Qed.

(** C8, amended.  Add, Edit and Delete keep the ids distinct: when the
    collection that was loaded has no two Contacts with the same id
    (the empty collection of a missing file is such a collection), no
    state reached by a sequence of commands has two Contacts with the
    same id, as long as the ids fit [int].  [loadContacts] itself does
    not check the ids it reads. *)
Theorem commands_keep_ids_unique (file : option string) (cs : list Contact)
    (cmds : list command) :
  unique_ids cs ->
  max_id cs + adds_in cmds <= INT_MAX ->
  unique_ids (contacts (menu cmds (startup file cs)))
  /\ (loadContacts None = Some (Ok []) /\ unique_ids []).
Proof.
  intros Hu Hb. split; [| split; [reflexivity | constructor]].
  change cs with (contacts (startup file cs)) in Hu, Hb.
  revert Hu Hb. generalize (startup file cs). clear file cs.
  unfold menu. induction cmds as [| cmd cmds IH]; intros st Hu Hb;
    cbn [fold_left]; [exact Hu |].
  rewrite adds_in_cons in Hb. pose proof (adds_in_nonneg cmds).
  destruct (dispatch_unique cmd st Hu) as [Hu' Hm]; [lia |].
  apply IH; [exact Hu' | lia].
Qed.

Lemma commands_keep_ids_unique_witness :
  unique_ids (contacts (menu [Add "Ana" "1" "a"; Add "Bo" "2" "b"; Delete 1;
                              Add "Cy" "3" "c"; Edit 3 "Di" "" ""]
                             (startup None []))).
Proof.
  apply (commands_keep_ids_unique None []
           [Add "Ana" "1" "a"; Add "Bo" "2" "b"; Delete 1;
            Add "Cy" "3" "c"; Edit 3 "Di" "" ""]).
  - constructor.
  - vm_compute. discriminate.
Defined.

(** ** The scenarios of the specification *)

Example scenario_add :
  listContacts (fst (addContact "Ana" "555-1111" "ana@x.com" empty_store))
  = [ {| id := 1; name := "Ana"; phone := "555-1111"; email := "ana@x.com" |} ].
Proof. reflexivity. Qed.

Example scenario_delete :
  let st := {| contacts := [ {| id := 1; name := "Ana"; phone := ""; email := "" |};
                             {| id := 2; name := "Bo"; phone := ""; email := "" |} ];
               data_file := None |} in
  deleteContact 1 st
  = ({| contacts := [ {| id := 2; name := "Bo"; phone := ""; email := "" |} ];
        data_file := Some ("2|Bo||" ++ String NL "") |}, Done).
Proof. reflexivity. Qed.

Example scenario_delete_unknown :
  let st := {| contacts := [ {| id := 1; name := "Ana"; phone := ""; email := "" |} ];
               data_file := None |} in
  deleteContact 5 st = (st, NotFound).
Proof. reflexivity. Qed.

Example scenario_edit :
  let st := {| contacts := [ {| id := 3; name := "Cy"; phone := "555-2222";
                                email := "cy@x.com" |} ];
               data_file := None |} in
  contacts (fst (editContact 3 "" "555-3333" " " st))
  = [ {| id := 3; name := "Cy"; phone := "555-3333"; email := "cy@x.com" |} ].
Proof. reflexivity. Qed.

Example scenario_search_blank :
  let st := {| contacts := [ {| id := 1; name := "Ana"; phone := ""; email := "" |};
                             {| id := 2; name := "Bo"; phone := ""; email := "" |} ];
               data_file := None |} in
  searchContacts "   " st = contacts st
  /\ searchContacts " o " st
     = [ {| id := 2; name := "Bo"; phone := ""; email := "" |} ].
Proof. split; reflexivity. Qed.

(** * Further properties of the program *)

(** ** [trim] *)

Lemma whitespace_only_last s c :
  whitespace_only s -> last_char s = Some c -> in_set c WS = true.
Proof.
  unfold whitespace_only. revert c.
  induction s as [| x s IH]; intros c Hs Hc; [discriminate Hc |].
  cbn [str_forall] in Hs. apply andb_true_iff in Hs. destruct Hs as [Hx Hs].
  cbn [last_char] in Hc. destruct (last_char s) as [d |].
  - inversion Hc; subst. apply IH; [exact Hs | reflexivity].
  - inversion Hc; subst. exact Hx.
Qed.

Lemma find_last_not_of_some_last s k :
  find_last_not_of WS s = Some k -> exists d, last_char s = Some d.
Proof.
  destruct s as [| x s]; [discriminate |]. intros _. cbn [last_char].
  destruct (last_char s) as [d |]; eexists; reflexivity.
Qed.

Lemma upto_last_fixed s :
  (forall c, last_char s = Some c -> in_set c WS = false) -> upto_last s = s.
Proof.
  induction s as [| y s IH]; intros H; [reflexivity |].
  rewrite upto_last_cons.
  destruct (find_last_not_of WS s) as [k |] eqn:Ek.
  - rewrite IH; [reflexivity |].
    intros c Hc. apply H. cbn [last_char]. rewrite Hc. reflexivity.
  - pose proof (find_last_not_of_none s Ek) as Hs.
    cbn [last_char] in H. destruct (last_char s) as [d |] eqn:Ed.
    + pose proof (whitespace_only_last s d Hs Ed) as Hd.
      rewrite (H d eq_refl) in Hd. discriminate Hd.
    + rewrite (H y eq_refl). destruct s as [| z s]; [reflexivity |].
      cbn [last_char] in Ed. destruct (last_char s); discriminate Ed.
Qed.

Lemma trim_fixed t : no_space_at_ends t -> trim t = t.
Proof.
  intros [Hf Hl]. destruct t as [| x s]; [reflexivity |].
  rewrite (trim_cons_other x s (Hf x eq_refl)).
  rewrite upto_last_fixed; [reflexivity |].
  intros c Hc. apply Hl. cbn [last_char]. rewrite Hc. reflexivity.
Qed.

(** X1.  [trim] removes the spaces, tabs, newlines and carriage returns
    at the two ends of its argument and nothing else: the argument is
    white space, then the result, then white space; the result neither
    starts nor ends with white space; and the result is empty exactly
    when the argument is white space only. *)
Theorem trim_strips_both_ends (s : string) :
  (exists l r, s = l ++ trim s ++ r /\ whitespace_only l /\ whitespace_only r)
  /\ no_space_at_ends (trim s)
  /\ (trim s = EmptyString <-> whitespace_only s).
Proof.
  destruct (trim_Trimmed s) as [H1 H2].
  split; [exact H1 |]. split; [exact H2 | apply trim_empty_iff].
Qed.

(** X2.  [trim] is idempotent, and leaves alone a string that neither
    starts nor ends with white space (white space inside is kept). *)
Theorem trim_idempotent (s : string) :
  trim (trim s) = trim s
  /\ (no_space_at_ends s -> trim s = s).
Proof.
  split; [| apply trim_fixed].
  apply trim_fixed. apply (trim_Trimmed s).
Qed.

(** ** [loadContacts] on arbitrary text *)

Lemma Forall_nth_default {A} (P : A -> Prop) l d k :
  Forall P l -> P d -> P (nth k l d).
Proof.
  intros Hl Hd. revert k. induction Hl as [| x l Hx _ IH]; intros k.
  - destruct k; exact Hd.
  - destruct k; [exact Hx | apply IH].
Qed.

Lemma getlines_no_newline s :
  Forall (fun l => str_forall (differs NL) l = true) (getlines s).
Proof.
  induction s as [| c s IH]; cbn [getlines]; [constructor |].
  destruct (Ascii.eqb c NL) eqn:E; [constructor; [reflexivity | exact IH] |].
  assert (Hc : differs NL c = true) by (unfold differs; rewrite E; reflexivity).
  destruct (getlines s) as [| l ls].
  - constructor; [cbn; rewrite Hc; reflexivity | constructor].
  - inversion IH as [| ? ? Hl Hls]; subst.
    constructor; [cbn; rewrite Hc, Hl; reflexivity | exact Hls].
Qed.

Lemma split_on_no_delim d s :
  Forall (fun w => str_forall (differs d) w = true) (split_on d s).
Proof.
  induction s as [| c s IH]; cbn [split_on].
  - constructor; [reflexivity | constructor].
  - destruct (Ascii.eqb c d) eqn:E; [constructor; [reflexivity | exact IH] |].
    assert (Hc : differs d c = true) by (unfold differs; rewrite E; reflexivity).
    destruct (split_on d s) as [| w ws].
    + constructor; [cbn; rewrite Hc; reflexivity | constructor].
    + inversion IH as [| ? ? Hw Hws]; subst.
      constructor; [cbn; rewrite Hc, Hw; reflexivity | exact Hws].
Qed.

Lemma split_on_keeps p d s :
  str_forall p s = true ->
  Forall (fun w => str_forall p w = true) (split_on d s).
Proof.
  induction s as [| c s IH]; cbn [split_on str_forall]; intros H.
  - constructor; [reflexivity | constructor].
  - apply andb_true_iff in H. destruct H as [Hc Hs]. specialize (IH Hs).
    destruct (Ascii.eqb c d); [constructor; [reflexivity | exact IH] |].
    destruct (split_on d s) as [| w ws].
    + constructor; [cbn; rewrite Hc; reflexivity | constructor].
    + inversion IH as [| ? ? Hw Hws]; subst.
      constructor; [cbn; rewrite Hc, Hw; reflexivity | exact Hws].
Qed.

Lemma field_plain k line :
  str_forall (differs NL) line = true -> plain (field k line).
Proof.
  intros H. unfold plain, field.
  pose proof (split_on_no_delim BAR line) as H1.
  pose proof (split_on_keeps (differs NL) BAR line H) as H2.
  assert (H3 : Forall (fun w => str_forall plain_char w = true)
                 (split_on BAR line)).
  { rewrite Forall_forall in *. intros w Hw.
    specialize (H1 w Hw). specialize (H2 w Hw).
    clear - H1 H2. induction w as [| c w IH]; [reflexivity |].
    cbn [str_forall] in *. apply andb_true_iff in H1, H2.
    destruct H1 as [A1 B1], H2 as [A2 B2]. rewrite (IH B1 B2).
    unfold plain_char. unfold differs in A1, A2. rewrite A1, A2. reflexivity. }
  apply (Forall_nth_default _ _ EmptyString k H3). reflexivity.
Qed.

Lemma stoi_in_int s i : stoi s = Ok i -> in_int i.
Proof.
  unfold stoi.
  destruct (match skip_space s with
            | EmptyString => (false, skip_space s)
            | String c r =>
                if Ascii.eqb c "-" then (true, r)
                else if Ascii.eqb c "+" then (false, r)
                else (false, skip_space s)
            end) as [neg s2].
  destruct (starts_with_digit s2); [| discriminate].
  destruct (in_intb _) eqn:E; [| discriminate].
  intros H. inversion H; subst. apply in_intb_spec. exact E.
Qed.

Lemma decode_lines_read ls :
  forall acc cs, decode_lines ls acc = Ok cs ->
    exists cs', cs = (acc ++ cs')%list /\ Forall2 read_from ls cs'.
Proof.
  induction ls as [| l ls IH]; intros acc cs H; cbn [decode_lines] in H.
  - inversion H; subst. exists []. rewrite app_nil_r. split; constructor.
  - rewrite parse_line_fields in H.
    destruct (stoi (field 0 l)) as [i |] eqn:E; [| discriminate].
    destruct (IH _ _ H) as [cs' [-> HF]].
    exists (contact_of_line i l :: cs'). split.
    + rewrite <- app_assoc. reflexivity.
    + constructor; [| exact HF]. repeat split. exact E.
Qed.

Lemma loadContacts_read text cs :
  loadContacts (Some text) = Some (Ok cs) ->
  Forall2 read_from (getlines text) cs.
Proof.
  rewrite loadContacts_lines. intros H. inversion H as [H'].
  destruct (decode_lines_read _ _ _ H') as [cs' [-> HF]]. exact HF.
Qed.

Lemma read_from_storable l c :
  str_forall (differs NL) l = true -> read_from l c -> storable c.
Proof.
  intros Hl (Hi & Hn & Hp & He). unfold storable.
  rewrite Hn, Hp, He. split; [apply (stoi_in_int _ _ Hi) |].
  repeat split; apply field_plain, Hl.
Qed.

Lemma loaded_storable text cs :
  loadContacts (Some text) = Some (Ok cs) -> Forall storable cs.
Proof.
  intros H. pose proof (loadContacts_read text cs H) as HF.
  pose proof (getlines_no_newline text) as HL.
  clear H. set (lines := getlines text) in *. clearbody lines. revert HL.
  induction HF as [| l c ls cs' Hlc _ IH]; intros HL; [constructor |].
  inversion HL as [| ? ? Hl Hls]; subst.
  constructor; [apply (read_from_storable l c Hl Hlc) | apply IH, Hls].
Qed.

Lemma load_saved cs :
  Forall storable cs -> loadContacts (Some (saveContacts cs)) = Some (Ok cs).
Proof.
  intros H. rewrite loadContacts_lines, (getlines_saveContacts cs H).
  rewrite (decode_lines_of cs H). reflexivity.
Qed.

(** X3.  When [loadContacts] succeeds on a text, whatever the text, it
    has made one Contact per line, in the order of the lines: the id is
    what [std::stoi] reads in the first field, and name, phone and email
    are the second, third and fourth fields (empty when missing). *)
Theorem load_one_contact_per_line (text : string) (cs : list Contact) :
  loadContacts (Some text) = Some (Ok cs) ->
  Forall2 read_from (getlines text) cs
  /\ List.length cs = List.length (getlines text).
Proof.
  intros H. pose proof (loadContacts_read text cs H) as HF.
  split; [exact HF |]. symmetry. apply (Forall2_length HF).
Qed.

Lemma load_one_contact_per_line_witness :
  let text := "7|Bo" ++ String NL " 12x|Cy|5|c|rest" in
  Forall2 read_from (getlines text)
    [ {| id := 7; name := "Bo"; phone := ""; email := "" |};
      {| id := 12; name := "Cy"; phone := "5"; email := "c" |} ].
Proof.
  intros text.
  apply (load_one_contact_per_line text
           [ {| id := 7; name := "Bo"; phone := ""; email := "" |};
             {| id := 12; name := "Cy"; phone := "5"; email := "c" |} ]).
  reflexivity.
Defined.

(** X4.  Whatever [loadContacts] has read can be written and read
    again without loss: every Contact it returns has an [int] id and
    fields free of the delimiter and of newlines, so saving the
    collection and loading the file gives the collection back. *)
Theorem loaded_collection_resaves (text : string) (cs : list Contact) :
  loadContacts (Some text) = Some (Ok cs) ->
  Forall storable cs
  /\ loadContacts (Some (saveContacts cs)) = Some (Ok cs).
Proof.
  intros H. pose proof (loaded_storable text cs H) as Hs.
  split; [exact Hs | apply load_saved, Hs].
Qed.

Lemma loaded_collection_resaves_witness :
  let cs := [ {| id := 7; name := "Bo"; phone := ""; email := "" |};
              {| id := 12; name := "Cy"; phone := "5"; email := "c" |} ] in
  loadContacts (Some (saveContacts cs)) = Some (Ok cs).
Proof.
  intros cs.
  apply (loaded_collection_resaves
           ("7|Bo" ++ String NL " 12x|Cy|5|c|rest") cs).
  reflexivity.
Defined.

(** ** Delimiters inside fields, final newline, surplus fields *)

Lemma split_on_nonempty d s : split_on d s <> [].
Proof.
  destruct s as [| c s]; cbn [split_on]; [discriminate |].
  destruct (Ascii.eqb c d); [discriminate |].
  destruct (split_on d s); discriminate.
Qed.

Lemma split_on_app d a b :
  split_on d (a ++ String d b) = (split_on d a ++ split_on d b)%list.
Proof.
  induction a as [| c a IH]; cbn [append split_on].
  - rewrite Ascii.eqb_refl. reflexivity.
  - destruct (Ascii.eqb c d); [rewrite IH; reflexivity |].
    rewrite IH. pose proof (split_on_nonempty d a) as Hne.
    destruct (split_on d a) as [| w ws]; [congruence | reflexivity].
Qed.

Lemma nth_0_app_nonempty (l1 l2 : list string) :
  l1 <> [] -> nth 0 (l1 ++ l2) EmptyString = nth 0 l1 EmptyString.
Proof. destruct l1; [congruence | reflexivity]. Qed.

Lemma line_of_one_line c :
  one_line c -> str_forall (differs NL) (line_of c) = true.
Proof.
  intros (_ & Hn & Hp & He). unfold line_of.
  rewrite !str_forall_app.
  rewrite (plain_no_nl _ (put_int_plain (id c))), Hn, Hp, He.
  reflexivity.
Qed.

Lemma getlines_save_one_line cs :
  Forall one_line cs -> getlines (saveContacts cs) = map line_of cs.
Proof.
  induction 1 as [| c cs Hc _ IH]; cbn [saveContacts map]; [reflexivity |].
  rewrite put_contact_line, getlines_line by (apply line_of_one_line, Hc).
  rewrite IH. reflexivity.
Qed.

Lemma line_of_split c :
  split_on BAR (line_of c)
  = put_int (id c)
    :: (split_on BAR (name c)
        ++ split_on BAR (phone c ++ "|" ++ email c))%list.
Proof.
  unfold line_of.
  change ("|" ++ name c ++ "|" ++ phone c ++ "|" ++ email c)
    with (String BAR (name c ++ String BAR (phone c ++ "|" ++ email c))).
  rewrite split_on_field by (apply plain_no_bar, put_int_plain).
  rewrite split_on_app. reflexivity.
Qed.

Lemma parse_line_reread c :
  in_int (id c) -> parse_line (line_of c) = Ok (reread c, put_int (id c)).
Proof.
  intros Hi. rewrite parse_line_fields. unfold field at 1.
  rewrite line_of_split. cbn [nth]. rewrite (stoi_put_int _ Hi).
  unfold reread, field. rewrite line_of_split. reflexivity.
Qed.

Lemma decode_lines_reread cs :
  Forall one_line cs ->
  forall acc,
    decode_lines (map line_of cs) acc = Ok (acc ++ map reread cs)%list.
Proof.
  induction 1 as [| c cs Hc _ IH]; intros acc; cbn [map decode_lines].
  - rewrite app_nil_r. reflexivity.
  - destruct Hc as (Hi & _).
    rewrite (parse_line_reread c Hi), IH, <- app_assoc. reflexivity.
Qed.

Lemma reread_name c : name (reread c) = field 0 (name c).
Proof.
  unfold reread, contact_of_line, field. cbn [name].
  rewrite line_of_split. cbn [nth].
  apply nth_0_app_nonempty, split_on_nonempty.
Qed.

(** X5.  A delimiter typed into a field does not lose records or ids:
    for Contacts with [int] ids and no newline in their fields, the
    file written by [saveContacts] loads, with as many Contacts, the
    same ids in the same order, and as name the part of the name that
    comes before its first delimiter; what has been loaded is free of
    delimiters. *)
Theorem delimiter_in_field_keeps_ids (cs : list Contact) :
  Forall one_line cs ->
  exists cs',
    loadContacts (Some (saveContacts cs)) = Some (Ok cs')
    /\ ids cs' = ids cs
    /\ List.length cs' = List.length cs
    /\ Forall2 (fun c c' => id c' = id c /\ name c' = field 0 (name c)) cs cs'
    /\ Forall storable cs'.
Proof.
  intros H. exists (map reread cs).
  assert (E : loadContacts (Some (saveContacts cs)) = Some (Ok (map reread cs))).
  { rewrite loadContacts_lines, (getlines_save_one_line cs H).
    rewrite (decode_lines_reread cs H). reflexivity. }
  split; [exact E |]. split; [| split; [| split]].
  - unfold ids. rewrite map_map. reflexivity.
  - apply length_map.
  - clear. induction cs as [| c cs IH]; cbn [map]; constructor; [| exact IH].
    split; [reflexivity | apply reread_name].
  - apply (loaded_storable _ _ E).
Qed.

Lemma delimiter_in_field_keeps_ids_witness :
  exists cs',
    loadContacts
      (Some (saveContacts
               [ {| id := 4; name := "Ana|Maria"; phone := "5"; email := "a" |} ]))
    = Some (Ok cs')
    /\ ids cs' = [4].
Proof.
  destruct (delimiter_in_field_keeps_ids
              [ {| id := 4; name := "Ana|Maria"; phone := "5"; email := "a" |} ])
    as (cs' & E & Hi & _).
  - constructor; [| constructor].
    split; [apply in_intb_spec; reflexivity |]. repeat split.
  - exists cs'. split; [exact E | exact Hi].
Defined.

Lemma getlines_final_newline s :
  forall c, last_char s = Some c -> c <> NL ->
    getlines (s ++ String NL EmptyString) = getlines s.
Proof.
  induction s as [| x s IH]; intros c Hc Hne; [discriminate Hc |].
  cbn [append getlines]. cbn [last_char] in Hc.
  destruct (last_char s) as [d |] eqn:Ed.
  - inversion Hc; subst d. rewrite (IH c eq_refl Hne). reflexivity.
  - inversion Hc; subst x.
    destruct s as [| y s];
      [| cbn [last_char] in Ed; destruct (last_char s); discriminate Ed].
    destruct (Ascii.eqb_spec c NL) as [-> | _]; [congruence | reflexivity].
Qed.

(** X6.  The newline after the last line is optional: a text that ends
    in a character other than a newline loads as the same text followed
    by a newline does. *)
Theorem final_newline_is_optional (text : string) (c : ascii) :
  last_char text = Some c -> c <> NL ->
  loadContacts (Some (text ++ String NL EmptyString))
  = loadContacts (Some text).
Proof.
  intros Hc Hne. rewrite !loadContacts_lines.
  rewrite (getlines_final_newline text c Hc Hne). reflexivity.
Qed.

Lemma final_newline_is_optional_witness :
  loadContacts (Some ("1|Ana|5|a" ++ String NL EmptyString))
  = loadContacts (Some "1|Ana|5|a").
Proof.
  apply (final_newline_is_optional "1|Ana|5|a" "a"%char).
  - reflexivity.
  - discriminate.
Defined.

Lemma getlines_unlines ls :
  Forall (fun l => str_forall (differs NL) l = true) ls ->
  getlines (unlines ls) = ls.
Proof.
  induction 1 as [| l ls Hl _ IH]; cbn [unlines]; [reflexivity |].
  rewrite (getlines_line l _ Hl), IH. reflexivity.
Qed.

Lemma parse_line_surplus line extra :
  (4 <= List.length (split_on BAR line))%nat ->
  parse_line (line ++ String BAR extra) = parse_line line.
Proof.
  intros H. rewrite !parse_line_fields. unfold contact_of_line, field.
  rewrite split_on_app. rewrite !app_nth1 by lia. reflexivity.
Qed.

Lemma decode_lines_middle l1 :
  forall acc a b l2,
    parse_line a = parse_line b ->
    decode_lines (l1 ++ a :: l2) acc = decode_lines (l1 ++ b :: l2) acc.
Proof.
  induction l1 as [| l l1 IH]; intros acc a b l2 H; cbn [app decode_lines].
  - rewrite H. reflexivity.
  - destruct (parse_line l) as [[c s] | e]; [apply IH, H | reflexivity].
Qed.

(** X7.  Fields after the fourth are ignored: adding a delimiter and
    any text to a line that has four fields or more does not change
    what [loadContacts] returns for the file. *)
Theorem surplus_fields_are_ignored (l1 l2 : list string) (line extra : string) :
  Forall (fun l => str_forall (differs NL) l = true)
         (l1 ++ (line ++ String BAR extra) :: l2) ->
  (4 <= List.length (split_on BAR line))%nat ->
  loadContacts (Some (unlines (l1 ++ (line ++ String BAR extra) :: l2)))
  = loadContacts (Some (unlines (l1 ++ line :: l2))).
Proof.
  intros Hnl Hlen. rewrite !loadContacts_lines.
  rewrite (getlines_unlines _ Hnl).
  rewrite getlines_unlines.
  - rewrite (decode_lines_middle l1 [] _ line l2
               (parse_line_surplus line extra Hlen)).
    reflexivity.
  - rewrite Forall_app in *. destruct Hnl as [H1 H2]. split; [exact H1 |].
    inversion H2 as [| ? ? Hl Hr]; subst. constructor; [| exact Hr].
    rewrite str_forall_app in Hl. apply andb_true_iff in Hl. apply Hl.
Qed.

Lemma surplus_fields_are_ignored_witness :
  loadContacts (Some (unlines ["1|Ana|5|a"; "2|Bo|6|b" ++ String BAR "x|y"]))
  = loadContacts (Some (unlines ["1|Ana|5|a"; "2|Bo|6|b"])).
Proof.
  apply (surplus_fields_are_ignored ["1|Ana|5|a"] [] "2|Bo|6|b" "x|y").
  - repeat constructor.
  - cbn. lia.
Defined.

(** ** Unknown ids *)

Lemma filter_shorter {A} (p : A -> bool) l x :
  In x l -> p x = false ->
  (List.length (filter p l) < List.length l)%nat.
Proof.
  induction l as [| y l IH]; intros Hin Hp; [destruct Hin |].
  cbn [filter List.length]. pose proof (filter_length_le p l).
  destruct Hin as [-> | Hin].
  - rewrite Hp. lia.
  - specialize (IH Hin Hp). destruct (p y); cbn [List.length]; lia.
Qed.

Lemma filter_same {A} (p : A -> bool) l :
  (forall x, In x l -> p x = true) -> filter p l = l.
Proof.
  induction l as [| y l IH]; intros H; cbn [filter]; [reflexivity |].
  rewrite (H y (or_introl eq_refl)), IH; [reflexivity |].
  intros x Hx. apply H. right. exact Hx.
Qed.

(** [deleteContact] without the iterators. *)
Lemma deleteContact_eq i st :
  deleteContact i st =
    if (List.length (filter (fun c => negb (id c =? i)%Z) (contacts st))
        =? List.length (contacts st))%nat
    then (st, NotFound)
    else ({| contacts := filter (fun c => negb (id c =? i)%Z) (contacts st);
             data_file :=
               Some (saveContacts
                       (filter (fun c => negb (id c =? i)%Z) (contacts st))) |},
          Done).
Proof.
  unfold deleteContact.
  pose proof (remove_if_length (fun c => id c =? i) (contacts st)) as L.
  pose proof (erase_remove_if (fun c => id c =? i) (contacts st)) as E.
  unfold remove_if in *. cbn [fst snd] in L, E. rewrite L, E.
  destruct (_ =? _)%nat; reflexivity.
Qed.

Lemma deleteContact_missing i st :
  (forall c, In c (contacts st) -> id c <> i) ->
  deleteContact i st = (st, NotFound).
Proof.
  intros H. rewrite deleteContact_eq, filter_same.
  - rewrite Nat.eqb_refl. reflexivity.
  - intros c Hc. apply negb_true_iff, Z.eqb_neq, H, Hc.
Qed.

Lemma deleteContact_present i st c :
  In c (contacts st) -> id c = i -> snd (deleteContact i st) = Done.
Proof.
  intros Hc Hi. rewrite deleteContact_eq.
  assert (Hlt : (List.length (filter (fun c => negb (id c =? i)%Z) (contacts st))
                 < List.length (contacts st))%nat).
  { apply (filter_shorter _ _ c Hc). apply negb_false_iff, Z.eqb_eq, Hi. }
  destruct (Nat.eqb_spec
              (List.length (filter (fun c => negb (id c =? i)%Z) (contacts st)))
              (List.length (contacts st))); [lia | reflexivity].
Qed.

Lemma no_id_after_delete i st c :
  In c (contacts (fst (deleteContact i st))) -> id c <> i.
Proof.
  rewrite deleteContact_eq.
  destruct (Nat.eqb_spec
              (List.length (filter (fun c => negb (id c =? i)%Z) (contacts st)))
              (List.length (contacts st))) as [E | _]; cbn [fst contacts].
  - intros Hc Hi.
    pose proof (filter_shorter (fun c => negb (id c =? i)%Z) _ c Hc) as Hlt.
    cbv beta in Hlt. rewrite Hi, Z.eqb_refl in Hlt.
    specialize (Hlt eq_refl). lia.
  - intros Hc. apply filter_In in Hc. destruct Hc as [_ Hc].
    apply negb_true_iff, Z.eqb_neq in Hc. exact Hc.
Qed.

Lemma edit_loop_missing i n p e cs :
  (forall c, In c cs -> id c <> i) -> edit_loop i n p e cs = None.
Proof.
  induction cs as [| c cs IH]; intros H; cbn [edit_loop]; [reflexivity |].
  pose proof (H c (or_introl eq_refl)) as Hc. apply Z.eqb_neq in Hc.
  rewrite Hc, IH; [reflexivity |].
  intros x Hx. apply H. right. exact Hx.
Qed.

Lemma editContact_missing i n p e st :
  (forall c, In c (contacts st) -> id c <> i) ->
  editContact i n p e st = (st, NotFound).
Proof.
  intros H. unfold editContact. rewrite (edit_loop_missing i n p e _ H).
  reflexivity.
Qed.

Lemma no_match_or_match i (cs : list Contact) :
  (forall c, In c cs -> id c <> i) \/ (exists c, In c cs /\ id c = i).
Proof.
  induction cs as [| x cs [IH | [c [Hc Hi]]]].
  - left. intros c [].
  - destruct (Z.eq_dec (id x) i) as [E | N].
    + right. exists x. split; [left; reflexivity | exact E].
    + left. intros c [<- | Hc]; [exact N | apply IH, Hc].
  - right. exists c. split; [right; exact Hc | exact Hi].
Qed.

(** X8.  [deleteContact] reports success exactly when some Contact of
    the collection has the id; when none has, it answers "not found"
    and neither the collection nor the file is touched. *)
Theorem delete_reports_found_iff_present (i : Z) (st : Store) :
  (snd (deleteContact i st) = Done <->
   exists c, In c (contacts st) /\ id c = i)
  /\ (snd (deleteContact i st) = NotFound -> fst (deleteContact i st) = st).
Proof.
  destruct (no_match_or_match i (contacts st)) as [Hno | [c [Hc Hi]]].
  - rewrite (deleteContact_missing i st Hno). cbn [fst snd]. split.
    + split; [discriminate |]. intros [c [Hc Hi]]. destruct (Hno c Hc Hi).
    + reflexivity.
  - pose proof (deleteContact_present i st c Hc Hi) as Hd. rewrite Hd. split.
    + split; [intros _; exists c; split; assumption | reflexivity].
    + discriminate.
Qed.

(** X9.  [editContact] reports success exactly when some Contact of the
    collection has the id; when none has, it answers "not found" and
    neither the collection nor the file is touched, whatever was typed. *)
Theorem edit_reports_found_iff_present (i : Z) (n p e : string) (st : Store) :
  (snd (editContact i n p e st) = Done <->
   exists c, In c (contacts st) /\ id c = i)
  /\ (snd (editContact i n p e st) = NotFound ->
      fst (editContact i n p e st) = st).
Proof.
  destruct (no_match_or_match i (contacts st)) as [Hno | Hex].
  - rewrite (editContact_missing i n p e st Hno). cbn [fst snd]. split.
    + split; [discriminate |]. intros [c [Hc Hi]]. destruct (Hno c Hc Hi).
    + reflexivity.
  - destruct (first_with_id i (contacts st) Hex)
      as (pre & c & post & E & Hpre & Hc).
    unfold editContact. rewrite E, (edit_loop_at i n p e pre c post Hpre Hc).
    cbn [fst snd]. split.
    + split; [intros _; rewrite <- E; exact Hex | reflexivity].
    + discriminate.
Qed.

Lemma max_id_same_ids cs cs' : ids cs = ids cs' -> max_id cs = max_id cs'.
Proof.
  intros E.
  pose proof (max_id_of_ids cs cs') as H1. pose proof (max_id_of_ids cs' cs) as H2.
  rewrite E in H1. rewrite <- E in H2.
  specialize (H1 (fun z H => H)). specialize (H2 (fun z H => H)). lia.
Qed.

(** X10.  [editContact] never changes an id, the number of Contacts or
    their order, found or not: the list of ids is what it was, and so
    is the id that the next addition will get. *)
Theorem edit_keeps_ids (i : Z) (n p e : string) (st : Store) :
  ids (contacts (fst (editContact i n p e st))) = ids (contacts st)
  /\ List.length (contacts (fst (editContact i n p e st)))
     = List.length (contacts st)
  /\ nextId (contacts (fst (editContact i n p e st))) = nextId (contacts st).
Proof.
  assert (E : ids (contacts (fst (editContact i n p e st))) = ids (contacts st)).
  { unfold editContact.
    destruct (edit_loop i n p e (contacts st)) as [cs |] eqn:El;
      cbn [fst contacts]; [| reflexivity].
    apply (edit_loop_ids _ _ _ _ _ _ El). }
  split; [exact E |]. split.
  - unfold ids in E. rewrite <- (length_map id), E. apply length_map.
  - unfold nextId. fold (max_id (contacts (fst (editContact i n p e st)))).
    fold (max_id (contacts st)). rewrite (max_id_same_ids _ _ E). reflexivity.
Qed.

(** X11.  Once [deleteContact] has run for an id, found or not, the id
    is unknown: a second [deleteContact] and any [editContact] for it
    answer "not found" and change nothing. *)
Theorem deleted_id_is_unknown (i : Z) (n p e : string) (st : Store) :
  deleteContact i (fst (deleteContact i st))
  = (fst (deleteContact i st), NotFound)
  /\ editContact i n p e (fst (deleteContact i st))
     = (fst (deleteContact i st), NotFound).
Proof.
  split.
  - apply deleteContact_missing. intros c. apply no_id_after_delete.
  - apply editContact_missing. intros c. apply no_id_after_delete.
Qed.

(** ** Ids *)

Lemma nextId_fresh cs :
  max_id cs < INT_MAX -> ~ In (nextId cs) (ids cs).
Proof.
  intros Hlt Hin. apply in_map_iff in Hin. destruct Hin as [c [Hc Hcin]].
  pose proof (max_id_ge _ _ Hcin). rewrite (nextId_max _ Hlt) in Hc. lia.
Qed.

(** X12.  As long as the largest id is below [INT_MAX], the id given by
    [nextId] is positive, fits [int] and is the id of no Contact of the
    collection; it is 1 whenever no Contact has a positive id (an empty
    collection, or a file with ids below 1). *)
Theorem nextId_is_positive_and_fresh (cs : list Contact) :
  max_id cs < INT_MAX ->
  1 <= nextId cs <= INT_MAX
  /\ ~ In (nextId cs) (ids cs)
  /\ ((forall c, In c cs -> id c <= 0) -> nextId cs = 1).
Proof.
  intros Hlt. pose proof (max_id_nonneg cs) as H0.
  split; [rewrite (nextId_max cs Hlt); lia |].
  split; [apply nextId_fresh, Hlt |].
  intros Hneg. rewrite (nextId_max cs Hlt).
  pose proof (max_id_le cs 0 ltac:(lia) Hneg). lia.
Qed.

Lemma nextId_is_positive_and_fresh_witness :
  nextId [ {| id := -3; name := "a"; phone := ""; email := "" |};
           {| id := 0; name := "b"; phone := ""; email := "" |} ] = 1.
Proof.
  apply (nextId_is_positive_and_fresh
           [ {| id := -3; name := "a"; phone := ""; email := "" |};
             {| id := 0; name := "b"; phone := ""; email := "" |} ]).
  - vm_compute. reflexivity.
  - intros c [<- | [<- | []]]; cbn [id]; lia.
Defined.

Lemma filter_added cs c :
  (forall x, In x cs -> id x <> id c) ->
  filter (fun x => negb (id x =? id c)) (cs ++ [c]) = cs.
Proof.
  intros H. rewrite filter_app. cbn [filter]. rewrite Z.eqb_refl. cbn [negb].
  rewrite app_nil_r. apply filter_same.
  intros x Hx. apply negb_true_iff, Z.eqb_neq, H, Hx.
Qed.

(** X13.  Ids are reused: deleting the Contact that [addContact] has
    just made gives the collection of before back, and the next
    [addContact] is given the same id again. *)
Theorem delete_after_add_restores (n p e n' p' e' : string) (st : Store) :
  max_id (contacts st) < INT_MAX ->
  let st1 := fst (addContact n p e st) in
  let i := snd (addContact n p e st) in
  let st2 := fst (deleteContact i st1) in
  snd (deleteContact i st1) = Done
  /\ contacts st2 = contacts st
  /\ snd (addContact n' p' e' st2) = i.
Proof.
  intros Hlt st1 i st2.
  set (c := {| id := nextId (contacts st); name := n; phone := p; email := e |}).
  assert (E1 : contacts st1 = (contacts st ++ [c])%list) by reflexivity.
  assert (Ei : i = id c) by reflexivity.
  assert (Hfresh : forall x, In x (contacts st) -> id x <> id c).
  { intros x Hx Heq. apply (nextId_fresh _ Hlt). cbn [c id] in Heq.
    rewrite <- Heq. apply in_map, Hx. }
  assert (Hd : snd (deleteContact i st1) = Done).
  { apply (deleteContact_present _ st1 c); [| symmetry; exact Ei].
    rewrite E1. apply in_or_app. right. left. reflexivity. }
  assert (Hc : contacts st2 = contacts st).
  { unfold st2. rewrite deleteContact_eq in Hd |- *.
    destruct (_ =? _)%nat; [discriminate Hd |].
    cbn [fst contacts]. rewrite E1, Ei.
    apply (filter_added (contacts st) c Hfresh). }
  split; [exact Hd |]. split; [exact Hc |].
  change (snd (addContact n' p' e' st2)) with (nextId (contacts st2)).
  rewrite Hc. reflexivity.
Qed.

Lemma delete_after_add_restores_witness :
  let st := {| contacts := [ {| id := 1; name := "Ana"; phone := ""; email := "" |} ];
               data_file := None |} in
  snd (addContact "Cy" "" ""
         (fst (deleteContact (snd (addContact "Bo" "" "" st))
                             (fst (addContact "Bo" "" "" st)))))
  = snd (addContact "Bo" "" "" st).
Proof.
  intros st.
  apply (delete_after_add_restores "Bo" "" "" "Cy" "" "" st).
  vm_compute. reflexivity.
Defined.

(** ** What an addition writes *)

Lemma saveContacts_app a b :
  saveContacts (a ++ b) = saveContacts a ++ saveContacts b.
Proof.
  induction a as [| c a IH]; cbn [app saveContacts]; [reflexivity |].
  rewrite IH, append_assoc'. reflexivity.
Qed.

(** X15.  [addContact] adds one line to what [saveContacts] writes: the
    text for the collection after the addition is the text for the
    collection before, character for character, followed by the line
    of the new Contact, whose id is [nextId] of the collection before. *)
Theorem add_extends_saved_text (n p e : string) (st : Store) :
  saveContacts (contacts (fst (addContact n p e st)))
  = saveContacts (contacts st)
    ++ put_int (nextId (contacts st)) ++ "|" ++ n ++ "|" ++ p ++ "|" ++ e
    ++ String NL EmptyString.
Proof.
  unfold addContact. cbn [fst contacts].
  rewrite saveContacts_app. cbn [saveContacts]. unfold put_contact.
  cbn [id name phone email]. rewrite !append_assoc'. reflexivity.
Qed.

(** ** What a session holds can be saved *)

Lemma edit_fields_storable c n p e :
  storable c -> plain n -> plain p -> plain e ->
  storable (edit_fields c n p e).
Proof.
  intros (Hi & Hn & Hp & He) Pn Pp Pe. unfold storable, edit_fields.
  cbn [id name phone email].
  split; [exact Hi |].
  destruct (blank n), (blank p), (blank e); repeat split; assumption.
Qed.

Lemma edit_loop_storable i n p e cs :
  plain n -> plain p -> plain e ->
  Forall storable cs ->
  forall cs', edit_loop i n p e cs = Some cs' -> Forall storable cs'.
Proof.
  intros Pn Pp Pe. induction 1 as [| c cs Hc Hcs IH]; intros cs' H;
    cbn [edit_loop] in H; [discriminate |].
  destruct (id c =? i).
  - inversion H; subst. constructor; [| exact Hcs].
    apply edit_fields_storable; assumption.
  - destruct (edit_loop i n p e cs) as [r |]; [| discriminate].
    inversion H; subst. constructor; [exact Hc | apply IH; reflexivity].
Qed.

Lemma dispatch_storable cmd st :
  plain_inputs cmd ->
  Forall storable (contacts st) ->
  max_id (contacts st) + adds_in [cmd] <= INT_MAX ->
  Forall storable (contacts (dispatch cmd st)).
Proof.
  intros Hp Hs Hb.
  destruct cmd as [n p e | | i n p e | i | q]; cbn [dispatch]; try exact Hs.
  - change (adds_in [Add n p e]) with 1 in Hb.
    assert (Hlt : max_id (contacts st) < INT_MAX) by lia.
    unfold addContact. cbn [fst contacts]. apply Forall_app. split; [exact Hs |].
    constructor; [| constructor]. destruct Hp as (Pn & Pp & Pe).
    unfold storable. cbn [id name phone email].
    split; [| repeat split; assumption].
    rewrite (nextId_max _ Hlt). pose proof (max_id_nonneg (contacts st)).
    pose proof int_bounds as [Hmin Hmax]. unfold in_int. lia.
  - destruct Hp as (Pn & Pp & Pe). unfold editContact.
    destruct (edit_loop i n p e (contacts st)) as [cs |] eqn:E;
      cbn [fst contacts]; [| exact Hs].
    apply (edit_loop_storable i n p e _ Pn Pp Pe Hs cs E).
  - rewrite deleteContact_eq. destruct (_ =? _)%nat; cbn [fst contacts];
      [exact Hs |].
    rewrite Forall_forall in *. intros c Hc. apply Hs.
    apply filter_In in Hc. apply Hc.
Qed.

Lemma menu_storable cmds :
  forall st,
    Forall plain_inputs cmds ->
    unique_ids (contacts st) ->
    Forall storable (contacts st) ->
    max_id (contacts st) + adds_in cmds <= INT_MAX ->
    Forall storable (contacts (menu cmds st)).
Proof.
  unfold menu.
  induction cmds as [| cmd cmds IH]; intros st Hp Hu Hs Hb;
    cbn [fold_left]; [exact Hs |].
  inversion Hp as [| ? ? Hp1 Hp2]; subst.
  rewrite adds_in_cons in Hb. pose proof (adds_in_nonneg cmds).
  destruct (dispatch_unique cmd st Hu) as [Hu' Hm]; [lia |].
  apply IH; [exact Hp2 | exact Hu' | | lia].
  apply dispatch_storable; [exact Hp1 | exact Hs | lia].
Qed.

Lemma loaded_any_storable file cs :
  loadContacts file = Some (Ok cs) -> Forall storable cs.
Proof.
  destruct file as [text |]; [apply loaded_storable |].
  intros H. inversion H. constructor.
Qed.

(** X16.  What a session holds can be saved and read again without
    loss.  Let the program start from a file (or none) that loads with
    distinct ids, and run any commands whose typed fields hold no
    delimiter and no newline (the ids staying within [int]).  Then
    every Contact in memory has an [int] id and fields free of
    delimiters and newlines, and the text that [saveContacts] produces
    for the collection loads as exactly that collection. *)
Theorem session_collection_reloads (file : option string) (cs : list Contact)
    (cmds : list command) :
  loadContacts file = Some (Ok cs) ->
  unique_ids cs ->
  Forall plain_inputs cmds ->
  max_id cs + adds_in cmds <= INT_MAX ->
  Forall storable (contacts (menu cmds (startup file cs)))
  /\ loadContacts (Some (saveContacts (contacts (menu cmds (startup file cs)))))
     = Some (Ok (contacts (menu cmds (startup file cs)))).
Proof.
  intros Hl Hu Hp Hb.
  assert (Hs : Forall storable (contacts (menu cmds (startup file cs)))).
  { apply menu_storable; try assumption.
    apply (loaded_any_storable file cs Hl). }
  split; [exact Hs | apply load_saved, Hs].
Qed.

Lemma session_collection_reloads_witness :
  let cmds := [Add "Ana" "555-1111" "ana@x.com"; Add "Bo" " " "";
               Edit 2 "  Bo B. " "" ""; Delete 1; Search "x"; Delete 9;
               Add "Cy" "5" "c"] in
  loadContacts (Some (saveContacts (contacts (menu cmds (startup None [])))))
  = Some (Ok (contacts (menu cmds (startup None [])))).
Proof.
  intros cmds. apply (session_collection_reloads None [] cmds).
  - reflexivity.
  - constructor.
  - repeat constructor.
  - vm_compute. discriminate.
Defined.

(** ** Searching *)

Lemma Substring_trans a b s : Substring a b -> Substring b s -> Substring a s.
Proof.
  intros (p1 & q1 & ->) (p2 & q2 & ->).
  exists (p2 ++ p1), (q1 ++ q2). rewrite !append_assoc'. reflexivity.
Qed.

Lemma matches_weaken a b c :
  Substring a b -> matches b c = true -> matches a c = true.
Proof.
  intros Hab. rewrite !matches_iff.
  intros [H | [H | H]]; [left | right; left | right; right];
    apply (Substring_trans a b _ Hab H).
Qed.

(** X17.  A shorter query finds more: when the trimmed query [q1]
    occurs in the trimmed query [q2], every Contact printed for [q2] is
    printed for [q1]. *)
Theorem search_is_monotone (q1 q2 : string) (st : Store) :
  Substring (trim q1) (trim q2) ->
  forall c, In c (searchContacts q2 st) -> In c (searchContacts q1 st).
Proof.
  intros Hq c. unfold searchContacts. rewrite !search_loop_filter, !filter_In.
  intros [Hc Hm]. split; [exact Hc | apply (matches_weaken _ _ c Hq Hm)].
Qed.

Lemma search_is_monotone_witness :
  let c := {| id := 1; name := "Ana Maria"; phone := ""; email := "" |} in
  let st := {| contacts := [c]; data_file := None |} in
  In c (searchContacts " Mar" st).
Proof.
  intros c st. apply (search_is_monotone " Mar" "a Maria " st).
  - exists "a ", "ia". reflexivity.
  - left. reflexivity.
Defined.

(** X18.  What was typed as a name finds the Contact: right after
    [addContact], [searchContacts] with the name, the phone or the email
    as it was typed prints the new Contact. *)
Theorem search_finds_added (n p e : string) (st : Store) :
  let st1 := fst (addContact n p e st) in
  let c := {| id := snd (addContact n p e st); name := n; phone := p;
              email := e |} in
  In c (searchContacts n st1) /\ In c (searchContacts p st1)
  /\ In c (searchContacts e st1).
Proof.
  intros st1 c.
  assert (Hin : In c (contacts st1)).
  { unfold st1, addContact. cbn [fst contacts]. apply in_or_app. right.
    left. reflexivity. }
  assert (Hsub : forall s, Substring (trim s) s).
  { intros s. destruct (trim_Trimmed s) as [(l & r & E & _) _].
    exists l, r. exact E. }
  unfold searchContacts. rewrite !search_loop_filter, !filter_In, !matches_iff.
  repeat split; try exact Hin.
  - left. apply Hsub.
  - right. left. apply Hsub.
  - right. right. apply Hsub.
Qed.

(** ** What the id field may look like *)

Lemma skip_space_prefix w s :
  str_forall isspace w = true -> skip_space (w ++ s) = skip_space s.
Proof.
  induction w as [| c w IH]; cbn [append str_forall]; [reflexivity |].
  intros H. apply andb_true_iff in H. destruct H as [Hc Hw].
  cbn [skip_space]. rewrite Hc. apply IH, Hw.
Qed.

Lemma skip_space_suffix s rest :
  skip_space s <> EmptyString -> skip_space (s ++ rest) = skip_space s ++ rest.
Proof.
  induction s as [| c s IH]; cbn [append skip_space]; [congruence |].
  destruct (isspace c); [exact IH | reflexivity].
Qed.

Lemma strtol_digits_suffix s rest :
  starts_with_digit rest = false ->
  forall acc, strtol_digits acc (s ++ rest) = strtol_digits acc s.
Proof.
  intros Hr. induction s as [| c s IH]; intros acc; cbn [append].
  - destruct rest as [| d rest]; [reflexivity |].
    cbn [strtol_digits]. cbn [starts_with_digit] in Hr. rewrite Hr. reflexivity.
  - cbn [strtol_digits]. destruct (is_digit c); [apply IH | reflexivity].
Qed.

Lemma stoi_tail s rest :
  starts_with_digit s = true -> starts_with_digit rest = false ->
  starts_with_digit (s ++ rest) = true
  /\ strtol_digits 0 (s ++ rest) = strtol_digits 0 s.
Proof.
  intros Hs Hr. split; [| apply strtol_digits_suffix, Hr].
  destruct s; [discriminate Hs | exact Hs].
Qed.

(** X19.  The id field is read leniently: white space in front of the
    number is skipped, and once [std::stoi] accepts a field, whatever
    text is put behind it that does not start with a digit changes
    nothing; such a field loads with the same id. *)
Theorem stoi_ignores_surroundings (w s rest : string) (i : Z) :
  str_forall isspace w = true ->
  starts_with_digit rest = false ->
  stoi s = Ok i ->
  stoi (w ++ s ++ rest) = Ok i.
Proof.
  intros Hw Hr. unfold stoi. rewrite (skip_space_prefix w _ Hw).
  destruct (skip_space s) as [| c r] eqn:E; [discriminate |].
  rewrite skip_space_suffix by (rewrite E; discriminate).
  rewrite E. cbn [append].
  destruct (Ascii.eqb c "-"); [| destruct (Ascii.eqb c "+")].
  - destruct (starts_with_digit r) eqn:Hd; [| discriminate].
    destruct (stoi_tail r rest Hd Hr) as [-> ->]. trivial.
  - destruct (starts_with_digit r) eqn:Hd; [| discriminate].
    destruct (stoi_tail r rest Hd Hr) as [-> ->]. trivial.
  - destruct (starts_with_digit (String c r)) eqn:Hd; [| discriminate].
    destruct (stoi_tail (String c r) rest Hd Hr) as [H1 H2].
    cbn [append] in H1, H2. rewrite H1, H2. trivial.
Qed.

Lemma stoi_ignores_surroundings_witness :
  stoi (String TAB " " ++ "-12" ++ "abc") = Ok (-12).
Proof.
  apply (stoi_ignores_surroundings (String TAB " ") "-12" "abc" (-12));
    reflexivity.
Defined.

(** ** Which id fields load *)

Lemma strtol_digits_value ds :
  str_forall is_digit ds = true ->
  forall acc,
    strtol_digits acc ds
    = acc * 10 ^ Z.of_nat (String.length ds) + dec_value ds.
Proof.
  induction ds as [| c r IH]; cbn [str_forall]; intros H acc.
  - cbn. lia.
  - apply andb_true_iff in H. destruct H as [Hc Hr].
    cbn [strtol_digits dec_value String.length]. rewrite Hc, (IH Hr).
    rewrite Nat2Z.inj_succ, Z.pow_succ_r by lia. ring.
Qed.

Lemma skip_space_split s :
  exists w, s = w ++ skip_space s /\ str_forall isspace w = true.
Proof.
  induction s as [| c s [w [E Hw]]]; [exists EmptyString; split; reflexivity |].
  cbn [skip_space]. destruct (isspace c) eqn:Hc.
  - exists (String c w). split; [cbn [append]; rewrite <- E; reflexivity |].
    cbn [str_forall]. rewrite Hc, Hw. reflexivity.
  - exists EmptyString. split; reflexivity.
Qed.

Lemma digits_split s :
  exists ds rest,
    s = ds ++ rest /\ str_forall is_digit ds = true
    /\ starts_with_digit rest = false.
Proof.
  induction s as [| c s (ds & rest & E & Hd & Hr)].
  - exists EmptyString, EmptyString. repeat split.
  - destruct (is_digit c) eqn:Hc.
    + exists (String c ds), rest. split; [cbn [append]; rewrite <- E; reflexivity |].
      split; [cbn [str_forall]; rewrite Hc, Hd; reflexivity | exact Hr].
    + exists EmptyString, (String c s). repeat split. exact Hc.
Qed.

(** The digits that [strtol] reads at the head of a string. *)
Lemma leading_numeral s :
  starts_with_digit s = true ->
  exists ds rest,
    s = ds ++ rest /\ numeral ds /\ starts_with_digit rest = false
    /\ strtol_digits 0 s = dec_value ds.
Proof.
  intros Hs. destruct (digits_split s) as (ds & rest & E & Hd & Hr).
  exists ds, rest. split; [exact E |]. split; [| split; [exact Hr |]].
  - split; [| exact Hd]. intros ->. cbn [append] in E. subst rest.
    rewrite Hs in Hr. discriminate Hr.
  - rewrite E, (strtol_digits_suffix ds rest Hr), (strtol_digits_value ds Hd).
    lia.
Qed.

Lemma numeral_head ds rest :
  numeral ds -> starts_with_digit rest = false ->
  starts_with_digit (ds ++ rest) = true
  /\ strtol_digits 0 (ds ++ rest) = dec_value ds.
Proof.
  intros [Hne Hd] Hr. split.
  - destruct ds as [| c r]; [congruence |].
    cbn [str_forall] in Hd. apply andb_true_iff in Hd. apply Hd.
  - rewrite (strtol_digits_suffix ds rest Hr), (strtol_digits_value ds Hd). lia.
Qed.

Lemma stoi_minus t :
  stoi (String "-" t) =
    if starts_with_digit t
    then if in_intb (- strtol_digits 0 t)
         then Ok (- strtol_digits 0 t) else Throw out_of_range
    else Throw invalid_argument.
Proof. reflexivity. Qed.

Lemma stoi_plus t :
  stoi (String "+" t) =
    if starts_with_digit t
    then if in_intb (strtol_digits 0 t)
         then Ok (strtol_digits 0 t) else Throw out_of_range
    else Throw invalid_argument.
Proof. reflexivity. Qed.

Lemma stoi_after_space w t :
  str_forall isspace w = true -> stoi (w ++ t) = stoi t.
Proof.
  intros Hw. unfold stoi. rewrite (skip_space_prefix w t Hw). reflexivity.
Qed.

Lemma stoi_accepted s i : accepted_id s i -> stoi s = Ok i.
Proof.
  intros (w & sg & ds & rest & -> & Hw & Hn & Hr & -> & Hi).
  rewrite (stoi_after_space w _ Hw).
  destruct (numeral_head ds rest Hn Hr) as [Hs Hv].
  apply in_intb_spec in Hi.
  destruct sg; cbn [sign_text sign_apply append] in *.
  - destruct (ds ++ rest) as [| c r] eqn:E; [discriminate Hs |].
    cbn [starts_with_digit] in Hs. rewrite (stoi_unsigned c r Hs), Hv, Hi.
    reflexivity.
  - rewrite stoi_plus, Hs, Hv, Hi. reflexivity.
  - rewrite stoi_minus, Hs, Hv, Hi. reflexivity.
Qed.

Lemma stoi_Ok_accepted s i : stoi s = Ok i -> accepted_id s i.
Proof.
  intros H. pose proof (stoi_in_int s i H) as Hi.
  destruct (skip_space_split s) as [w [Es Hw]].
  unfold stoi in H. destruct (skip_space s) as [| c r] eqn:E;
    [discriminate H |].
  destruct (Ascii.eqb_spec c "-") as [-> | Hm];
    [| destruct (Ascii.eqb_spec c "+") as [-> | Hp]].
  - destruct (starts_with_digit r) eqn:Hs; [| discriminate H].
    destruct (leading_numeral r Hs) as (ds & rest & Er & Hn & Hr & Hv).
    destruct (in_intb _); [| discriminate H]. injection H as Ei. subst i.
    exists w, Minus, ds, rest.
    split; [rewrite Es, Er; reflexivity |]. split; [exact Hw |].
    split; [exact Hn |]. split; [exact Hr |]. split; [| exact Hi].
    cbn [sign_apply]. rewrite <- Hv. reflexivity.
  - destruct (starts_with_digit r) eqn:Hs; [| discriminate H].
    destruct (leading_numeral r Hs) as (ds & rest & Er & Hn & Hr & Hv).
    destruct (in_intb _); [| discriminate H]. injection H as Ei. subst i.
    exists w, Plus, ds, rest.
    split; [rewrite Es, Er; reflexivity |]. split; [exact Hw |].
    split; [exact Hn |]. split; [exact Hr |]. split; [| exact Hi].
    cbn [sign_apply]. rewrite <- Hv. reflexivity.
  - destruct (starts_with_digit (String c r)) eqn:Hs; [| discriminate H].
    destruct (leading_numeral _ Hs) as (ds & rest & Er & Hn & Hr & Hv).
    destruct (in_intb _); [| discriminate H]. injection H as Ei. subst i.
    exists w, NoSign, ds, rest.
    split; [rewrite Es, Er; reflexivity |]. split; [exact Hw |].
    split; [exact Hn |]. split; [exact Hr |]. split; [| exact Hi].
    cbn [sign_apply]. rewrite <- Hv. reflexivity.
Qed.

(** [std::stoi] accepts a string exactly when it has the syntax of an
    id field, and returns the number written. *)
Lemma stoi_iff_accepted s i : stoi s = Ok i <-> accepted_id s i.
Proof. split; [apply stoi_Ok_accepted | apply stoi_accepted]. Qed.

Lemma valid_id_iff_syntax l : valid_id l <-> id_syntax (field 0 l).
Proof.
  unfold valid_id, id_syntax. split; intros [i H]; exists i;
    apply stoi_iff_accepted; exact H.
Qed.

Lemma integer_literal_all_sign_or_digit s :
  integer_literal s ->
  exists sg ds, s = sign_text sg ++ ds /\ str_forall is_digit ds = true.
Proof.
  intros (sg & ds & E & [_ Hd] & _). exists sg, ds. split; assumption.
Qed.

(** C4 as stated fails: the first field of the line below is not an
    integer (letters follow the digits), and yet the load does not
    fail: the line gives a Contact whose id is the number in front. *)
Lemma lenient_id_counterexample :
  let text := "12abc|Ana|5|a" in
  In text (getlines text)
  /\ ~ integer_literal (field 0 text)
  /\ loadContacts (Some text)
     = Some (Ok [ {| id := 12; name := "Ana"; phone := "5"; email := "a" |} ]).
Proof.
  cbv zeta. split; [left; reflexivity |]. split; [| reflexivity].
  intros H. apply integer_literal_all_sign_or_digit in H.
  destruct H as (sg & ds & E & Hd).
  change (field 0 "12abc|Ana|5|a") with "12abc" in E.
  destruct sg; cbn [sign_text append] in E.
  - subst ds. discriminate Hd.
  - discriminate E.
  - discriminate E.
Qed.

(** C4, amended.  [loadContacts] throws exactly when the first field of
    some line (every line is processed, the empty ones too) does not
    have the syntax that the integer parse accepts: optional white
    space, an optional sign, one decimal digit or more with a value
    that fits [int], then any text that does not go on with a digit
    (that text is ignored).  The failure ends the load: no sequence of
    Contacts is produced for a text with such a line.  When every line
    has a first field of that syntax the load succeeds, and the id of
    each Contact is the number written in its line. *)
Theorem load_throws_iff_id_rejected (text : string) :
  ((exists e, loadContacts (Some text) = Some (Throw e))
   <-> (exists l, In l (getlines text) /\ ~ id_syntax (field 0 l)))
  /\ ((exists l, In l (getlines text) /\ ~ id_syntax (field 0 l))
      -> forall cs, loadContacts (Some text) <> Some (Ok cs))
  /\ ((forall l, In l (getlines text) -> id_syntax (field 0 l))
      -> exists cs,
           loadContacts (Some text) = Some (Ok cs)
           /\ Forall2 (fun l c => accepted_id (field 0 l) (id c))
                      (getlines text) cs).
Proof.
  destruct (load_throws_iff_bad_id text) as (Hiff & Hno & Hok).
  assert (Hbad : (exists l, In l (getlines text) /\ ~ id_syntax (field 0 l))
                 <-> (exists l, In l (getlines text) /\ ~ valid_id l)).
  { split; intros [l [Hin Hl]]; exists l; (split; [exact Hin |]);
      intros Hv; apply Hl; apply valid_id_iff_syntax; exact Hv. }
  split; [rewrite Hbad; exact Hiff |]. split.
  - intros H. apply Hno, Hbad, H.
  - intros Hall. destruct Hok as [cs Hcs].
    { intros l Hl. apply valid_id_iff_syntax, Hall, Hl. }
    exists cs. split; [exact Hcs |].
    pose proof (loadContacts_read text cs Hcs) as HF.
    clear - HF. induction HF as [| l c ls cs' (Hi & _) _ IH]; constructor;
      [apply stoi_iff_accepted, Hi | exact IH].
Qed.
